(** * Ontolearn: concept generator, size-budget decomposition, F1 score and
      learner construction

    A shallow embedding of the parts of the Ontolearn sources that the
    specification speaks about:

    - [core/util.py]: [decompose] and [getCombos], without and with the
      call stack of the interpreter, and [incCrossProduct];
    - [ontolearn/concept_generator.py]: [ConceptGenerator] with its memo
      tables and the five derivation operations;
    - [examples/concept_learning_evaluation.py]: [compute_f1_score], as
      an exact value and as the binary64 float the code returns;
    - [ontolearn/base_concept_learner.py]: [BaseConceptLearner.__init__]
      and the reporting methods.

    Python integers are unbounded and are modelled by [Z]; sets of
    individuals by [gset nat]; dictionaries by [gmap]; exceptions by a sum
    type; the mutable generator object by explicit state passing; Python
    floats by the primitive binary64 floats, next to the exact rational
    value of the same expression. *)

From Stdlib Require Import ZArith List Lia Bool QArith Ascii String.
From Stdlib Require PrimFloat Uint63.
From stdpp Require Import base gmap strings list fin_maps.

Set Default Proof Using "Type".
Local Set Warnings "-clear-no-such-hyp".

(* ===================================================================== *)
(** * Part I: definitions                                                 *)
(* ===================================================================== *)

(** ** core/util.py *)

Module Util.

Local Open Scope Z_scope.

(** The body of [decompose] is a [while i >= 1] loop that calls
    [decompose] again from inside.  [decompose_loop fuel number i bisher
    combosTmp] is that loop, entered with the loop variable equal to [i];
    every test of the loop guard spends one unit of [fuel], and a nested
    call starts with what is left.  The list [combosTmp], which the Python
    code extends in place, is threaded through and returned.

    Inside the loop [newbisher] starts as a fresh empty list, becomes
    [bisher] extended by [i] when [i == 0] (a branch the loop guard
    [i >= 1] excludes) or when [number - i != 1], and stays empty
    otherwise.  A list appended to [combosTmp] is never extended later, so
    it is entered by value.

    This is the function as the Python text defines it, on an interpreter
    with room for every nested call; [decompose_loop_limited] below adds
    the call stack of CPython. *)
Fixpoint decompose_loop (fuel : nat) (number i : Z) (bisher : list Z)
         (combosTmp : list (list Z)) : option (list (list Z)) :=
  match fuel with
  | O => None
  | S fuel' =>
      let decompose number upperlimit bisher combosTmp :=
        decompose_loop fuel' number (Z.min number upperlimit)
                       bisher combosTmp in
      if 1 <=? i then
        let newbisher :=
          if i =? 0 then bisher ++ [i]
          else if negb (number - i =? 1) then bisher ++ [i]
          else [] in
        let after_body :=
          if 1 <? number - i then
            decompose (number - i - 1) i newbisher combosTmp
          else if number - i =? 0 then Some (combosTmp ++ [newbisher])
          else Some combosTmp in
        match after_body with
        | Some combos' => decompose_loop fuel' number (i - 1) bisher combos'
        | None => None
        end
      else Some combosTmp
  end.

(** [decompose number upperlimit bisher combosTmp]: the loop variable
    starts at [min(number, upperlimit)]. *)
Definition decompose (fuel : nat) (number upperlimit : Z) (bisher : list Z)
           (combosTmp : list (list Z)) : option (list (list Z)) :=
  decompose_loop fuel number (Z.min number upperlimit) bisher combosTmp.

(** [getCombos length max_length] *)
Definition getCombos (fuel : nat) (length max_length : Z)
  : option (list (list Z)) :=
  decompose fuel length max_length [] [].

(** Fuel that is always enough for the loop entered at [(number, i)]: one
    unit for the final test of the guard and one per possible decrease of
    the loop variable and of the budget. *)
Definition loop_fuel (number i : Z) : nat :=
  S (Z.to_nat i + Z.to_nat number).

Definition combos_fuel (length max_length : Z) : nat :=
  loop_fuel length (Z.min length max_length).

(** *** The call stack

    CPython runs every call of a Python function in a frame of its own
    and raises [RecursionError] at a call for which the recursion limit
    leaves no room; nothing in [core/util.py] catches it, so it ends the
    outermost call.  The definitions above leave the stack out; the ones
    below carry it.

    [limit] is the room left when [decompose] is called: the recursion
    limit (1000 unless it was changed) less the depth already reached.
    A call of [decompose] takes one unit of it until it returns.  Two
    calls made from its body need room of their own while they run: the
    opening [min(number, upperlimit)] and [copy.copy(bisher)].  How much
    depends on the interpreter, which may charge calls into C as well as
    Python frames: CPython 3.11 charges two units for each of the two
    calls, an interpreter that charges Python frames only charges
    nothing for [min] and one unit for [copy.copy].  What else the body
    does ([list()], [append], comparisons) needs no more than [min]. *)
Inductive Raised := RecursionError.

Record Interpreter := {
  min_room : nat;
  copy_room : nat
}.

Definition cpython_3_11 : Interpreter := {| min_room := 2; copy_room := 2 |}.
Definition frames_only : Interpreter := {| min_room := 0; copy_room := 1 |}.

(** Entering [decompose] with [limit] units left: what is left for the
    body, or nothing when the call itself or its opening [min] finds no
    room. *)
Definition enter (py : Interpreter) (limit : nat) : option nat :=
  match limit with
  | O => None
  | S frames => if (frames <? min_room py)%nat then None else Some frames
  end.

(** [newbisher = copy.copy(bisher); newbisher.append(i)] with [frames]
    units left. *)
Definition copy_append (py : Interpreter) (frames : nat) (bisher : list Z)
           (i : Z) : Raised + list Z :=
  if (frames <? copy_room py)%nat then inl RecursionError
  else inr (bisher ++ [i]).

Fixpoint decompose_loop_limited (py : Interpreter) (fuel frames : nat)
         (number i : Z) (bisher : list Z) (combosTmp : list (list Z))
  : option (Raised + list (list Z)) :=
  match fuel with
  | O => None
  | S fuel' =>
      let decompose number upperlimit bisher combosTmp :=
        match enter py frames with
        | None => Some (inl RecursionError)
        | Some frames' =>
            decompose_loop_limited py fuel' frames' number
                                   (Z.min number upperlimit) bisher combosTmp
        end in
      if 1 <=? i then
        let newbisher :=
          if i =? 0 then inr (bisher ++ [i])
          else if negb (number - i =? 1) then copy_append py frames bisher i
          else inr [] in
        match newbisher with
        | inl e => Some (inl e)
        | inr newbisher =>
            let after_body :=
              if 1 <? number - i then
                decompose (number - i - 1) i newbisher combosTmp
              else if number - i =? 0
                   then Some (inr (combosTmp ++ [newbisher]))
                   else Some (inr combosTmp) in
            match after_body with
            | Some (inr combos') =>
                decompose_loop_limited py fuel' frames number (i - 1) bisher
                                       combos'
            | Some (inl e) => Some (inl e)
            | None => None
            end
        end
      else Some (inr combosTmp)
  end.

Definition decompose_limited (py : Interpreter) (fuel limit : nat)
           (number upperlimit : Z)
           (bisher : list Z) (combosTmp : list (list Z))
  : option (Raised + list (list Z)) :=
  match enter py limit with
  | None => Some (inl RecursionError)
  | Some frames =>
      decompose_loop_limited py fuel frames number
                             (Z.min number upperlimit) bisher combosTmp
  end.

(** [getCombos] calls [decompose] once and returns the list it filled. *)
Definition getCombos_limited (py : Interpreter) (fuel limit : nat)
           (length max_length : Z)
  : option (Raised + list (list Z)) :=
  decompose_limited py fuel limit length max_length [] [].

(** The room a body needs for the calls it makes itself. *)
Definition body_room (py : Interpreter) : nat :=
  Nat.max (min_room py) (copy_room py).

(** What the specification expects of one combination for the budget
    [number] with values capped by [cap]. *)
Fixpoint non_increasing (l : list Z) : Prop :=
  match l with
  | [] => True
  | x :: tl => match tl with
               | [] => True
               | y :: _ => y <= x
               end /\ non_increasing tl
  end.

Definition sum_list (l : list Z) : Z := fold_right Z.add 0 l.

Definition combo_ok (number cap : Z) (combo : list Z) : Prop :=
  non_increasing combo
  /\ Forall (fun x => 1 <= x <= cap) combo
  /\ sum_list combo + (Z.of_nat (length combo) - 1) = number.

End Util.

(** ** ontolearn/concept_generator.py *)

Module Generator.

Local Open Scope string_scope.

(** Exceptions the generator can raise. *)
Inductive Exn := AssertionError | KeyError | IndexError | ValueError.

(** The [form] tag handed to the [Concept] constructor. *)
Inductive Form :=
| Class
| ObjectIntersectionOf
| ObjectUnionOf
| ObjectComplementOf
| ObjectSomeValuesFrom
| ObjectAllValuesFrom.

(** Modelled from the spec: the [Concept] class ([ontolearn/concept.py])
    is not among the sources; the record carries what the generator reads
    from a concept.  [cid] stands for the identity of the Python object:
    concepts are dictionary keys and are compared as objects, so two
    records are the same concept exactly when they are equal, [cid]
    included.  [owl_name] is [concept.owl.name], [owl_base_iri] is
    [concept.owl.namespace.base_iri], [str] the canonical string render,
    [full_iri] the full identifier and [instances] the cached extension
    (individuals are numbered). *)
Record Concept := mkConcept {
  cid : nat;
  owl_name : string;
  owl_base_iri : string;
  full_iri : string;
  str : string;
  form : Form;
  instances : gset nat
}.

(** A role (object property): its name and the (subject, object) pairs
    that [role.get_relations()] yields, in the order it yields them. *)
Record Role := mkRole {
  rid : nat;
  role_name : string;
  get_relations : list (nat * nat)
}.

#[export] Instance Exn_eq_dec : EqDecision Exn.
Proof. solve_decision. Defined.

#[export] Instance Form_eq_dec : EqDecision Form.
Proof. solve_decision. Defined.

Definition Form_to_nat (f : Form) : nat :=
  match f with
  | Class => 0
  | ObjectIntersectionOf => 1
  | ObjectUnionOf => 2
  | ObjectComplementOf => 3
  | ObjectSomeValuesFrom => 4
  | ObjectAllValuesFrom => 5
  end.

Definition Form_of_nat (n : nat) : Form :=
  match n with
  | 0 => Class
  | 1 => ObjectIntersectionOf
  | 2 => ObjectUnionOf
  | 3 => ObjectComplementOf
  | 4 => ObjectSomeValuesFrom
  | _ => ObjectAllValuesFrom
  end.

#[export] Instance Form_countable : Countable Form.
Proof.
  apply (inj_countable' Form_to_nat Form_of_nat). by intros [].
Defined.

#[export] Instance Concept_eq_dec : EqDecision Concept.
Proof. solve_decision. Defined.

#[export] Instance Concept_countable : Countable Concept.
Proof.
  apply (inj_countable'
           (fun c => (cid c, owl_name c, owl_base_iri c, full_iri c, str c,
                      form c, instances c))
           (fun t => match t with
                     | (i, n, b, fi, s, f, ins) => mkConcept i n b fi s f ins
                     end)).
  by intros [].
Defined.

#[export] Instance Role_eq_dec : EqDecision Role.
Proof. solve_decision. Defined.

#[export] Instance Role_countable : Countable Role.
Proof.
  apply (inj_countable'
           (fun r => (rid r, role_name r, get_relations r))
           (fun t => match t with (i, n, l) => mkRole i n l end)).
  by intros [].
Defined.

(** [len(C)] is answered by [Concept.__len__], which is not among the
    sources; the generator is modelled for any such function. *)
Class ConceptLen := clen : Concept -> nat.

(** The generator object.  [next_id] is the identity the next allocated
    [Concept] receives.  The ontology handle [onto], the process pool and
    the owlready classes created alongside each concept are written but
    never read back by the operations below; they are left out. *)
Record ConceptGenerator := mkGen {
  min_size_of_concept : Z;
  max_size_of_concept : Z;
  concepts : gmap string Concept;
  T : Concept;
  Bottom : Concept;
  log_of_intersections : gmap (Concept * Concept) Concept;
  log_of_unions : gmap (Concept * Concept) Concept;
  log_of_negations : gmap (Concept + string) Concept;
  log_of_universal_restriction : gmap (Concept * Role) Concept;
  log_of_existential_restriction : gmap (Concept * Role) Concept;
  next_id : nat
}.

Definition namespace_base_iri : string := "https://dice-research.org/".

(** Modelled from the spec: [Concept(concept=new_class, kwargs=...)]
    followed by [c.instances = possible_instances_].  The new class has
    the given name and the generator's namespace; its string render is
    its name and its full identifier is namespace plus name. *)
Definition new_concept (id : nat) (name : string) (f : Form)
           (possible_instances_ : gset nat) : Concept :=
  {| cid := id;
     owl_name := name;
     owl_base_iri := namespace_base_iri;
     full_iri := namespace_base_iri ++ name;
     str := name;
     form := f;
     instances := possible_instances_ |}.

(** [d[k]] on a dictionary: a missing key raises [KeyError]. *)
Definition getitem `{Countable K} {V} (d : gmap K V) (k : K) : Exn + V :=
  match d !! k with
  | Some v => inr v
  | None => inl KeyError
  end.

(** [ConceptGenerator.__init__]: both bounds are asserted to be truthy
    (non-zero); all memo tables start empty.  [first_id] is the first
    object identity that no existing concept uses. *)
Definition init (concepts0 : gmap string Concept) (T0 Bottom0 : Concept)
           (max_size min_size : Z) (first_id : nat)
  : Exn + ConceptGenerator :=
  if (max_size =? 0)%Z then inl AssertionError
  else if (min_size =? 0)%Z then inl AssertionError
  else inr {| min_size_of_concept := min_size;
              max_size_of_concept := max_size;
              concepts := concepts0;
              T := T0;
              Bottom := Bottom0;
              log_of_intersections := ∅;
              log_of_unions := ∅;
              log_of_negations := ∅;
              log_of_universal_restriction := ∅;
              log_of_existential_restriction := ∅;
              next_id := first_id |}.

(** [max_size_of_concept >= len(s) >= min_size_of_concept] *)
Definition in_bounds (g : ConceptGenerator) (s : gset nat) : bool :=
  ((Z.of_nat (size s) <=? max_size_of_concept g)%Z
   && (min_size_of_concept g <=? Z.of_nat (size s))%Z)%bool.

(** Registering a freshly built concept: the operation's memo table is
    replaced by [set_log], the concept is entered in [concepts] under its
    full identifier, and one object identity is used up. *)
Definition register (g : ConceptGenerator) (c : Concept)
           (set_log : ConceptGenerator -> ConceptGenerator)
  : ConceptGenerator :=
  let g' := set_log g in
  {| min_size_of_concept := min_size_of_concept g';
     max_size_of_concept := max_size_of_concept g';
     concepts := <[full_iri c := c]> (concepts g');
     T := T g';
     Bottom := Bottom g';
     log_of_intersections := log_of_intersections g';
     log_of_unions := log_of_unions g';
     log_of_negations := log_of_negations g';
     log_of_universal_restriction := log_of_universal_restriction g';
     log_of_existential_restriction := log_of_existential_restriction g';
     next_id := S (next_id g') |}.

Definition set_log_of_intersections (l : gmap (Concept * Concept) Concept)
           (g : ConceptGenerator) : ConceptGenerator :=
  {| min_size_of_concept := min_size_of_concept g;
     max_size_of_concept := max_size_of_concept g;
     concepts := concepts g;
     T := T g;
     Bottom := Bottom g;
     log_of_intersections := l;
     log_of_unions := log_of_unions g;
     log_of_negations := log_of_negations g;
     log_of_universal_restriction := log_of_universal_restriction g;
     log_of_existential_restriction := log_of_existential_restriction g;
     next_id := next_id g |}.

Definition set_log_of_unions (l : gmap (Concept * Concept) Concept)
           (g : ConceptGenerator) : ConceptGenerator :=
  {| min_size_of_concept := min_size_of_concept g;
     max_size_of_concept := max_size_of_concept g;
     concepts := concepts g;
     T := T g;
     Bottom := Bottom g;
     log_of_intersections := log_of_intersections g;
     log_of_unions := l;
     log_of_negations := log_of_negations g;
     log_of_universal_restriction := log_of_universal_restriction g;
     log_of_existential_restriction := log_of_existential_restriction g;
     next_id := next_id g |}.

Definition set_log_of_negations (l : gmap (Concept + string) Concept)
           (g : ConceptGenerator) : ConceptGenerator :=
  {| min_size_of_concept := min_size_of_concept g;
     max_size_of_concept := max_size_of_concept g;
     concepts := concepts g;
     T := T g;
     Bottom := Bottom g;
     log_of_intersections := log_of_intersections g;
     log_of_unions := log_of_unions g;
     log_of_negations := l;
     log_of_universal_restriction := log_of_universal_restriction g;
     log_of_existential_restriction := log_of_existential_restriction g;
     next_id := next_id g |}.

Definition set_log_of_universal_restriction
           (l : gmap (Concept * Role) Concept)
           (g : ConceptGenerator) : ConceptGenerator :=
  {| min_size_of_concept := min_size_of_concept g;
     max_size_of_concept := max_size_of_concept g;
     concepts := concepts g;
     T := T g;
     Bottom := Bottom g;
     log_of_intersections := log_of_intersections g;
     log_of_unions := log_of_unions g;
     log_of_negations := log_of_negations g;
     log_of_universal_restriction := l;
     log_of_existential_restriction := log_of_existential_restriction g;
     next_id := next_id g |}.

Definition set_log_of_existential_restriction
           (l : gmap (Concept * Role) Concept)
           (g : ConceptGenerator) : ConceptGenerator :=
  {| min_size_of_concept := min_size_of_concept g;
     max_size_of_concept := max_size_of_concept g;
     concepts := concepts g;
     T := T g;
     Bottom := Bottom g;
     log_of_intersections := log_of_intersections g;
     log_of_unions := log_of_unions g;
     log_of_negations := log_of_negations g;
     log_of_universal_restriction := log_of_universal_restriction g;
     log_of_existential_restriction := l;
     next_id := next_id g |}.

(** *** Python string helpers *)

(** A byte of the form 10xxxxxx continues a UTF-8 encoded character. *)
Definition is_continuation (a : ascii) : bool :=
  let n := nat_of_ascii a in ((128 <=? n) && (n <? 192))%nat.

Fixpoint drop_continuation (s : string) : string :=
  match s with
  | String a s' => if is_continuation a then drop_continuation s' else s
  | EmptyString => s
  end.

(** [s[1:]]: the string without its first character. *)
Definition py_tail (s : string) : string :=
  match s with
  | EmptyString => EmptyString
  | String _ s' => drop_continuation s'
  end.

(** *** The operations *)

Section Operations.

Context `{ConceptLen}.

Definition Outcome : Type := (Exn + Concept) * ConceptGenerator.

(** [__concepts_sorter(A, B)]: ascending [len]; on equal [len] the pair
    is sorted by [str] with Python's stable [list.sort], which swaps the
    two only when [B.str < A.str].  Strings are compared byte by byte,
    which on UTF-8 is Python's comparison by code point. *)
Definition concepts_sorter (A B : Concept) : Concept * Concept :=
  if (clen A <? clen B)%nat then (A, B)
  else if (clen B <? clen A)%nat then (B, A)
  else if String.ltb (str B) (str A) then (B, A)
  else (A, B).

(** [get_instances_for_restrictions(exist, role, filler)]: both
    branches run over [role.get_relations()] and collect in [temp]. *)
Definition get_instances_for_restrictions (g : ConceptGenerator)
           (exist : bool) (role : Role) (filler : Concept) : gset nat :=
  if exist then
    fold_left (fun (temp : gset nat) (xy : nat * nat) =>
                 if decide (xy.2 ∈ instances filler)
                 then temp ∪ {[ xy.1 ]} else temp)
              (get_relations role) ∅
  else
    let temp :=
      fold_left (fun (temp : gset nat) (so : nat * nat) =>
                   if decide (so.2 ∈ instances filler)
                   then temp else temp ∪ {[ so.2 ]})
                (get_relations role) ∅ in
    instances (T g) ∖ temp.

(** [negation(concept)] *)
Definition negation (g : ConceptGenerator) (concept : Concept) : Outcome :=
  match log_of_negations g !! (inl concept) with
  | Some c => (inr c, g)
  | None =>
      if negb (String.eqb (owl_name concept) "Thing") then
        let possible_instances_ := instances (T g) ∖ instances concept in
        let c := new_concept (next_id g) ("¬" ++ owl_name concept)
                             ObjectComplementOf possible_instances_ in
        let g' := register g c
                    (set_log_of_negations
                       (<[inl concept := c]> (log_of_negations g))) in
        (getitem (log_of_negations g') (inl concept), g')
      else if decide (form concept = ObjectComplementOf) then
        match str concept with
        | EmptyString => (inl IndexError, g)
        | _ =>
            if String.prefix "¬" (str concept) then
              (getitem (concepts g)
                       (owl_base_iri concept ++ py_tail (owl_name concept)),
               g)
            else (inl AssertionError, g)
        end
      else if String.eqb (owl_name concept) "Thing" then
        let l1 := <[inr (full_iri concept) := Bottom g]>
                    (log_of_negations g) in
        let l2 := <[inr (full_iri (Bottom g)) := concept]> l1 in
        let g' := set_log_of_negations l2 g in
        (getitem (log_of_negations g') (inr (full_iri concept)), g')
      else (inl ValueError, g)
  end.

(** [existential_restriction(concept, relation)] *)
Definition existential_restriction (g : ConceptGenerator)
           (concept : Concept) (relation : Role) : Outcome :=
  match log_of_existential_restriction g !! (concept, relation) with
  | Some c => (inr c, g)
  | None =>
      let possible_instances_ :=
        get_instances_for_restrictions g true relation concept in
      if negb (in_bounds g possible_instances_) then (inr (Bottom g), g)
      else
        let c := new_concept (next_id g)
                   ("(∃" ++ role_name relation ++ "." ++ str concept ++ ")")
                   ObjectSomeValuesFrom possible_instances_ in
        let g' := register g c
                    (set_log_of_existential_restriction
                       (<[(concept, relation) := c]>
                          (log_of_existential_restriction g))) in
        (getitem (log_of_existential_restriction g') (concept, relation),
         g')
  end.

(** [universal_restriction(concept, relation)] *)
Definition universal_restriction (g : ConceptGenerator)
           (concept : Concept) (relation : Role) : Outcome :=
  match log_of_universal_restriction g !! (concept, relation) with
  | Some c => (inr c, g)
  | None =>
      let possible_instances_ :=
        get_instances_for_restrictions g false relation concept in
      if negb (in_bounds g possible_instances_) then (inr (Bottom g), g)
      else
        let c := new_concept (next_id g)
                   ("(∀" ++ role_name relation ++ "." ++ str concept ++ ")")
                   ObjectAllValuesFrom possible_instances_ in
        let g' := register g c
                    (set_log_of_universal_restriction
                       (<[(concept, relation) := c]>
                          (log_of_universal_restriction g))) in
        (getitem (log_of_universal_restriction g') (concept, relation),
         g')
  end.

(** [union(A, B)] *)
Definition union (g : ConceptGenerator) (A0 B0 : Concept) : Outcome :=
  let (A, B) := concepts_sorter A0 B0 in
  if String.eqb (str A) "Nothing" then (inr B, g)
  else if String.eqb (str B) "Nothing" then (inr A, g)
  else
    match log_of_unions g !! (A, B) with
    | Some c => (inr c, g)
    | None =>
        let possible_instances_ := instances A ∪ instances B in
        if negb (in_bounds g possible_instances_) then (inr (Bottom g), g)
        else
          let c := new_concept (next_id g)
                     ("(" ++ str A ++ " ⊔ " ++ str B ++ ")")
                     ObjectUnionOf possible_instances_ in
          let g' := register g c
                      (set_log_of_unions
                         (<[(A, B) := c]> (log_of_unions g))) in
          (getitem (log_of_unions g') (A, B), g')
    end.

(** [intersection(A, B)] *)
Definition intersection (g : ConceptGenerator) (A0 B0 : Concept)
  : Outcome :=
  let (A, B) := concepts_sorter A0 B0 in
  match log_of_intersections g !! (A, B) with
  | Some c => (inr c, g)
  | None =>
      if (String.eqb (str A) "Nothing" || String.eqb (str B) "Nothing")%bool
      then
        let g' := set_log_of_intersections
                    (<[(A, B) := Bottom g]> (log_of_intersections g)) g in
        (getitem (log_of_intersections g') (A, B), g')
      else
        let possible_instances_ := instances A ∩ instances B in
        if negb (in_bounds g possible_instances_) then (inr (Bottom g), g)
        else
          let c := new_concept (next_id g)
                     ("(" ++ str A ++ "  ⊓  " ++ str B ++ ")")
                     ObjectIntersectionOf possible_instances_ in
          let g' := register g c
                      (set_log_of_intersections
                         (<[(A, B) := c]> (log_of_intersections g))) in
          (getitem (log_of_intersections g') (A, B), g')
  end.

End Operations.

(** *** Reference semantics and the invariant of the memo tables *)

(** The textbook extension of [∀R.C] over a domain: the individuals all
    of whose [R]-successors lie in the extension of [C]. *)
Definition universal_extension (domain : gset nat)
           (relations : list (nat * nat)) (filler : gset nat) : gset nat :=
  filter (fun x => Forall (fun so : nat * nat => so.1 = x -> so.2 ∈ filler)
                          relations)
         domain.

(** The textbook extension of [∃R.C]. *)
Definition existential_extension (relations : list (nat * nat))
           (filler : gset nat) : gset nat :=
  list_to_set (map fst (List.filter (fun so : nat * nat =>
                                       bool_decide (so.2 ∈ filler))
                                    relations)).

(** What every state built by the generator itself satisfies: an entry
    of a memo table was either stored by the ['Nothing'] shortcut of
    [intersection] (and is Bottom) or was stored after the size check,
    with the extension computed for its key. *)
Record log_inv (g : ConceptGenerator) : Prop := {
  inv_unions :
    forall A B c, log_of_unions g !! (A, B) = Some c ->
      in_bounds g (instances A ∪ instances B) = true
      /\ instances c = instances A ∪ instances B;
  inv_intersections :
    forall A B c, log_of_intersections g !! (A, B) = Some c ->
      ((str A = "Nothing" \/ str B = "Nothing") /\ c = Bottom g)
      \/ (str A <> "Nothing" /\ str B <> "Nothing"
          /\ in_bounds g (instances A ∩ instances B) = true
          /\ instances c = instances A ∩ instances B);
  inv_existential :
    forall C R c, log_of_existential_restriction g !! (C, R) = Some c ->
      in_bounds g (get_instances_for_restrictions g true R C) = true
      /\ instances c = get_instances_for_restrictions g true R C;
  inv_universal :
    forall C R c, log_of_universal_restriction g !! (C, R) = Some c ->
      in_bounds g (get_instances_for_restrictions g false R C) = true
      /\ instances c = get_instances_for_restrictions g false R C;
  inv_negations :
    forall C c, log_of_negations g !! (inl C) = Some c ->
      owl_name C <> "Thing"
      /\ instances c = instances (T g) ∖ instances C
}.

(** Case analysis on the next [x.str == 'Nothing'] test of the goal. *)
Ltac case_nothing :=
  match goal with
  | |- context [String.eqb (str ?X) "Nothing"] =>
      destruct (String.eqb_spec (str X) "Nothing")
  end.

End Generator.

(** ** A small world to run the generator on *)

Module Toy.

Import Generator.
Local Open Scope string_scope.

(** [len(C)] read as the specification does: the size of the extension. *)
Definition ext_len : ConceptLen := fun c => size (instances c).

Definition owl_iri : string := "http://www.w3.org/2002/07/owl#".

Definition atom (id : nat) (base name : string) (ins : gset nat) : Concept :=
  {| cid := id; owl_name := name; owl_base_iri := base;
     full_iri := base ++ name; str := name; form := Class;
     instances := ins |}.

(** Top and Bottom over a universe of six individuals. *)
Definition Top : Concept := atom 0 owl_iri "Thing" {[1; 2; 3; 4; 5; 6]}.
Definition Bot : Concept := atom 1 owl_iri "Nothing" ∅.

(** The two atomic concepts of the worked example. *)
Definition A : Concept := atom 2 "http://ex.org/" "A" {[1; 2; 3]}.
Definition B : Concept := atom 3 "http://ex.org/" "B" {[3; 4; 5]}.
Definition D : Concept := atom 4 "http://ex.org/" "D" {[4; 5; 6]}.

(** Two classes with the same local name in different namespaces. *)
Definition Person1 : Concept := atom 5 "http://a.org/" "Person" {[1; 2]}.
Definition Person2 : Concept := atom 6 "http://b.org/" "Person" {[2; 3]}.

(** A class of the ontology that is also called [Nothing]. *)
Definition Nothing2 : Concept := atom 7 "http://ex.org/" "Nothing" ∅.

(** A two-element universe with one role assertion [r(1, 2)]. *)
Definition Top2 : Concept := atom 0 owl_iri "Thing" {[1; 2]}.
Definition One : Concept := atom 2 "http://ex.org/" "One" {[1]}.
Definition r : Role := {| rid := 0; role_name := "r";
                          get_relations := [(1, 2)] |}.

Definition empty_gen (top bottom : Concept) (max_size min_size : Z)
  : ConceptGenerator :=
  {| min_size_of_concept := min_size;
     max_size_of_concept := max_size;
     concepts := ∅;
     T := top;
     Bottom := bottom;
     log_of_intersections := ∅;
     log_of_unions := ∅;
     log_of_negations := ∅;
     log_of_universal_restriction := ∅;
     log_of_existential_restriction := ∅;
     next_id := 10 |}.

(** Generators as [__init__] leaves them. *)
Definition g6 : ConceptGenerator := empty_gen Top Bot 6 1.
Definition g25 : ConceptGenerator := empty_gen Top Bot 5 2.
Definition g2 : ConceptGenerator := empty_gen Top2 Bot 5 1.

End Toy.

(** ** examples/concept_learning_evaluation.py *)

Module Evaluation.

Local Open Scope Q_scope.

(** [a / b] on two Python integers: [ZeroDivisionError] (here [None])
    when [b] is zero.  The quotient is the exact rational number: this
    is the value of the expression before Python rounds it to a float.
    The float itself is [true_div_binary64] below. *)
Definition true_div (a b : Z) : option Q :=
  if (b =? 0)%Z then None else Some (inject_Z a / inject_Z b).

Section F1.

Context `{Countable Ind}.

(** [compute_f1_score] with every quotient, product and sum exact: the
    value that the floats of the code approximate.  The floats
    themselves are [compute_f1_score_binary64] below. *)
Definition compute_f1_score (individuals pos neg : gset Ind) : Q :=
  let tp := Z.of_nat (size (pos ∩ individuals)) in
  let tn := Z.of_nat (size (neg ∖ individuals)) in
  let fp := Z.of_nat (size (neg ∩ individuals)) in
  let fn := Z.of_nat (size (pos ∖ individuals)) in
  match true_div tp (tp + fn) with
  | None => 0
  | Some recall =>
      match true_div tp (tp + fp) with
      | None => 0
      | Some precision =>
          if (Qeq_bool precision 0 || Qeq_bool recall 0)%bool then 0
          else 2 * ((precision * recall) / (precision + recall))
      end
  end.

(** The counts the specification names. *)
Definition true_pos (individuals pos : gset Ind) : Z :=
  Z.of_nat (size (pos ∩ individuals)).
Definition false_pos (individuals neg : gset Ind) : Z :=
  Z.of_nat (size (neg ∩ individuals)).
Definition false_neg (individuals pos : gset Ind) : Z :=
  Z.of_nat (size (pos ∖ individuals)).

End F1.

(** *** The score as a binary64 float

    What CPython computes.  [tp / (tp + fn)] on two integers is the
    float nearest to the quotient, which for integers below [2^53] (any
    count of members of a set in memory) is the IEEE quotient of the two
    integers as floats; the integer [2] is converted before it is
    multiplied; [precision == 0] compares a float with an integer; and
    every operation rounds its result.  The integer [0] that the three
    early [return]s give is written as the float zero, which it equals
    in Python. *)
Definition py_float (n : Z) : PrimFloat.float :=
  PrimFloat.of_uint63 (Uint63.of_Z n).

Definition true_div_binary64 (a b : Z) : option PrimFloat.float :=
  if (b =? 0)%Z then None
  else Some (PrimFloat.div (py_float a) (py_float b)).

Definition compute_f1_score_binary64 `{Countable Ind}
           (individuals pos neg : gset Ind) : PrimFloat.float :=
  let tp := Z.of_nat (size (pos ∩ individuals)) in
  let tn := Z.of_nat (size (neg ∖ individuals)) in
  let fp := Z.of_nat (size (neg ∩ individuals)) in
  let fn := Z.of_nat (size (pos ∖ individuals)) in
  match true_div_binary64 tp (tp + fn) with
  | None => py_float 0
  | Some recall =>
      match true_div_binary64 tp (tp + fp) with
      | None => py_float 0
      | Some precision =>
          if (PrimFloat.eqb precision (py_float 0)
              || PrimFloat.eqb recall (py_float 0))%bool
          then py_float 0
          else PrimFloat.mul (py_float 2)
                 (PrimFloat.div (PrimFloat.mul precision recall)
                                (PrimFloat.add precision recall))
      end
  end.

(** [compute_f1_score_binary64] from the three counts it uses. *)
Definition f1_of_counts_binary64 (tp fp fn : Z) : PrimFloat.float :=
  match true_div_binary64 tp (tp + fn) with
  | None => py_float 0
  | Some recall =>
      match true_div_binary64 tp (tp + fp) with
      | None => py_float 0
      | Some precision =>
          if (PrimFloat.eqb precision (py_float 0)
              || PrimFloat.eqb recall (py_float 0))%bool
          then py_float 0
          else PrimFloat.mul (py_float 2)
                 (PrimFloat.div (PrimFloat.mul precision recall)
                                (PrimFloat.add precision recall))
      end
  end.

(** The closed form evaluated in binary64.  For counts below [2^52] the
    denominator [tp + 0.5 * (fp + fn)] is computed without rounding, so
    the result is the float nearest to the exact closed form. *)
Definition f1_closed_form_binary64 (tp fp fn : Z) : PrimFloat.float :=
  if ((tp + fn =? 0)%Z || (tp + fp =? 0)%Z || (tp =? 0)%Z)%bool
  then py_float 0
  else PrimFloat.div
         (py_float tp)
         (PrimFloat.add
            (py_float tp)
            (PrimFloat.mul (PrimFloat.div (py_float 1) (py_float 2))
                           (PrimFloat.add (py_float fp) (py_float fn)))).

(** Two floats whose difference is at most [2^-51] times the second,
    which is between two and four units in its last place; zero is close
    to zero only. *)
Definition binary64_close (x y : PrimFloat.float) : bool :=
  PrimFloat.leb (PrimFloat.abs (PrimFloat.sub x y))
                (PrimFloat.mul y (PrimFloat.div (py_float 1)
                                                (py_float (2 ^ 51)))).

(** The closed form of the specification, [tp / (tp + ½ (fp + fn))],
    taken as [0] when recall is undefined ([tp + fn = 0]), precision is
    undefined ([tp + fp = 0]) or one of them is zero ([tp = 0]). *)
Definition f1_closed_form (tp fp fn : Z) : Q :=
  if ((tp + fn =? 0)%Z || (tp + fp =? 0)%Z || (tp =? 0)%Z)%bool then 0
  else inject_Z tp / (inject_Z tp + (1 # 2) * (inject_Z fp + inject_Z fn)).

(** [compute_f1_score] from the three counts it uses ([tn] is computed
    and never read). *)
Definition f1_of_counts (tp fp fn : Z) : Q :=
  match true_div tp (tp + fn) with
  | None => 0
  | Some recall =>
      match true_div tp (tp + fp) with
      | None => 0
      | Some precision =>
          if (Qeq_bool precision 0 || Qeq_bool recall 0)%bool then 0
          else 2 * ((precision * recall) / (precision + recall))
      end
  end.

End Evaluation.

(** ** ontolearn/base_concept_learner.py *)

Module Learner.

(** Modelled from the spec: the collaborators of a learner live in
    modules that are not among the sources ([knowledge_base],
    [refinement_operators], [search], [metrics], [heuristics],
    [concept]).  The interface lists what [__init__] uses of them: their
    truth values (Python's [assert x] and [if x]), the attribute
    [kb.thing], the default constructors and the setters called during
    construction. *)
Class Collaborators := {
  KnowledgeBase : Type;
  RefinementOperator : Type;
  QualityFunc : Type;
  HeuristicFunc : Type;
  SearchTree : Type;
  RootConcept : Type;
  kb_truthy : KnowledgeBase -> bool;
  rho_truthy : RefinementOperator -> bool;
  quality_truthy : QualityFunc -> bool;
  heuristic_truthy : HeuristicFunc -> bool;
  concept_truthy : RootConcept -> bool;
  thing : KnowledgeBase -> RootConcept;
  ModifiedCELOERefinement : KnowledgeBase -> Z -> RefinementOperator;
  set_concepts_node_mapping : RefinementOperator -> RefinementOperator;
  CELOEHeuristic : HeuristicFunc;
  F1 : QualityFunc;
  CELOESearchTree : QualityFunc -> HeuristicFunc -> SearchTree;
  set_quality_func : SearchTree -> QualityFunc -> SearchTree;
  set_heuristic_func : SearchTree -> HeuristicFunc -> SearchTree
}.

Section Init.

Context `{Collaborators}.

(** The attributes [__init__] leaves on the learner. *)
Record BaseConceptLearner := mkLearner {
  kb : KnowledgeBase;
  heuristic : HeuristicFunc;
  quality_func : QualityFunc;
  rho : RefinementOperator;
  search_tree : SearchTree;
  max_num_of_concepts_tested : option Z;
  concepts_to_ignore : list string;
  start_class : RootConcept;
  iter_bound : Z;
  terminate_on_goal : bool;
  verbose : bool
}.

(** [x if x is not None else d] *)
Definition or_default {A} (x : option A) (d : A) : A :=
  match x with
  | Some a => a
  | None => d
  end.

(** [BaseConceptLearner.__init__]; [None] is Python's [None].  The
    only check before the attributes are filled in is
    [assert knowledge_base]; each other collaborator that is [None] is
    replaced by its default, and the five closing assertions are made
    on the values after that replacement. *)
Definition init (knowledge_base : option KnowledgeBase)
           (refinement_operator : option RefinementOperator)
           (quality_func0 : option QualityFunc)
           (heuristic_func : option HeuristicFunc)
           (search_tree0 : option SearchTree)
           (terminate_on_goal0 : bool)
           (iter_bound0 max_child_length : Z)
           (verbose0 : bool)
           (max_num_of_concepts_tested0 : option Z)
           (ignored_concepts : option (list string))
           (root_concept : option RootConcept)
  : Generator.Exn + BaseConceptLearner :=
  let ignored_concepts := or_default ignored_concepts [] in
  match knowledge_base with
  | None => inl Generator.AssertionError
  | Some kb0 =>
      if negb (kb_truthy kb0) then inl Generator.AssertionError
      else
        let rho1 :=
          or_default refinement_operator
                     (ModifiedCELOERefinement kb0 max_child_length) in
        let rho2 := set_concepts_node_mapping rho1 in
        let heuristic1 := or_default heuristic_func CELOEHeuristic in
        let quality1 := or_default quality_func0 F1 in
        let tree1 :=
          match search_tree0 with
          | None => CELOESearchTree quality1 heuristic1
          | Some t =>
              set_heuristic_func (set_quality_func t quality1) heuristic1
          end in
        let start1 := or_default root_concept (thing kb0) in
        if negb (concept_truthy start1) then inl Generator.AssertionError
        else if negb (quality_truthy quality1)
        then inl Generator.AssertionError
        else if negb (heuristic_truthy heuristic1)
        then inl Generator.AssertionError
        else if negb (rho_truthy rho2) then inl Generator.AssertionError
        else inr {| kb := kb0;
                    heuristic := heuristic1;
                    quality_func := quality1;
                    rho := rho2;
                    search_tree := tree1;
                    max_num_of_concepts_tested :=
                      max_num_of_concepts_tested0;
                    concepts_to_ignore := ignored_concepts;
                    start_class := start1;
                    iter_bound := iter_bound0;
                    terminate_on_goal := terminate_on_goal0;
                    verbose := verbose0 |}
  end.

End Init.

(** A configuration is complete when every required collaborator the
    specification lists is supplied. *)
Definition all_supplied `{Collaborators}
           (knowledge_base : option KnowledgeBase)
           (refinement_operator : option RefinementOperator)
           (quality_func0 : option QualityFunc)
           (heuristic_func : option HeuristicFunc)
           (root_concept : option RootConcept) : Prop :=
  is_Some knowledge_base /\ is_Some refinement_operator
  /\ is_Some quality_func0 /\ is_Some heuristic_func
  /\ is_Some root_concept.

(** The simplest collaborators: one value of each kind, all of them
    truthy. *)
Definition unit_collaborators : Collaborators := {|
  KnowledgeBase := unit;
  RefinementOperator := unit;
  QualityFunc := unit;
  HeuristicFunc := unit;
  SearchTree := unit;
  RootConcept := unit;
  kb_truthy := fun _ => true;
  rho_truthy := fun _ => true;
  quality_truthy := fun _ => true;
  heuristic_truthy := fun _ => true;
  concept_truthy := fun _ => true;
  thing := fun _ => tt;
  ModifiedCELOERefinement := fun _ _ => tt;
  set_concepts_node_mapping := fun r => r;
  CELOEHeuristic := tt;
  F1 := tt;
  CELOESearchTree := fun _ _ => tt;
  set_quality_func := fun t _ => t;
  set_heuristic_func := fun t _ => t
|}.

End Learner.

(** ** What the operations of the generator leave unchanged *)

(** What one call may change: it never touches Top, Bottom or the bounds,
    and it either leaves the registry and the allocator alone or
    allocates exactly the concept it returns and enters it in the registry
    under its full identifier. *)
Definition frame_ok (g g' : Generator.ConceptGenerator)
           (r : Generator.Exn + Generator.Concept) : Prop :=
  (Generator.T g' = Generator.T g
   /\ Generator.Bottom g' = Generator.Bottom g
   /\ Generator.min_size_of_concept g' = Generator.min_size_of_concept g
   /\ Generator.max_size_of_concept g' = Generator.max_size_of_concept g)
  /\ ((Generator.next_id g' = Generator.next_id g
       /\ Generator.concepts g' = Generator.concepts g)
      \/ (exists c, r = inr c
                    /\ Generator.cid c = Generator.next_id g
                    /\ Generator.next_id g' = S (Generator.next_id g)
                    /\ Generator.concepts g'
                       = <[Generator.full_iri c := c]> (Generator.concepts g))).


(** ** ConceptGenerator.type_enrichment and core/util.py incCrossProduct *)

Module Enrichment.

Import Generator.

(** [ConceptGenerator.type_enrichment(instances, new_concept)]:
    [for i in instances: i.is_a.append(new_concept)].  The [is_a] lists of
    the individuals are the store; [instances] is the iterable in the
    order it yields. *)
Definition type_enrichment {X : Type} (instances : list nat) (new_concept : X)
           (is_a : nat -> list X) : nat -> list X :=
  fold_left (fun (store : nat -> list X) (i : nat) =>
               fun k => if decide (k = i) then store i ++ [new_concept]
                        else store k)
            instances is_a.

End Enrichment.

Module CrossProduct.

Import Generator.

Section IncCrossProduct.

Context `{ConceptLen}.

(** The inner loop of [incCrossProduct]: [for j in newset:
    retset.add(exp_gen.union(i, j))].  An exception raised by [union]
    ends the loop. *)
Fixpoint inner_loop (g : ConceptGenerator) (i : Concept)
         (newset : list Concept) (retset : gset Concept)
  : (Exn + gset Concept) * ConceptGenerator :=
  match newset with
  | [] => (inr retset, g)
  | j :: rest =>
      match union g i j with
      | (inl e, g') => (inl e, g')
      | (inr c, g') => inner_loop g' i rest (retset ∪ {[ c ]})
      end
  end.

(** The outer loop: [for i in baseset: ...]. *)
Fixpoint outer_loop (g : ConceptGenerator) (baseset newset : list Concept)
         (retset : gset Concept) : (Exn + gset Concept) * ConceptGenerator :=
  match baseset with
  | [] => (inr retset, g)
  | i :: rest =>
      match inner_loop g i newset retset with
      | (inl e, g') => (inl e, g')
      | (inr retset', g') => outer_loop g' rest newset retset'
      end
  end.

(** [incCrossProduct(baseset, newset, exp_gen)].  The two Python sets are
    given as the lists of their members in iteration order; [exp_gen] is
    the generator. *)
Definition incCrossProduct (baseset newset : list Concept)
           (exp_gen : ConceptGenerator)
  : (Exn + gset Concept) * ConceptGenerator :=
  match baseset with
  | [] => (inr (list_to_set newset), exp_gen)
  | _ :: _ => outer_loop exp_gen baseset newset ∅
  end.

End IncCrossProduct.

(** Two states of one generator: same Top, Bottom and bounds. *)
Definition same_config (g g' : ConceptGenerator) : Prop :=
  T g' = T g /\ Bottom g' = Bottom g
  /\ min_size_of_concept g' = min_size_of_concept g
  /\ max_size_of_concept g' = max_size_of_concept g.

(** One state of a generator coming after another: same Top, Bottom and
    bounds, and every entry of the memo table of unions still there. *)
Definition later (g g' : ConceptGenerator) : Prop :=
  same_config g g'
  /\ forall k c,
      log_of_unions g !! k = Some c -> log_of_unions g' !! k = Some c.

End CrossProduct.


(** ** Reporting methods of ontolearn/base_concept_learner.py *)

Module Reports.

Local Open Scope string_scope.

(** Exceptions of the reporting methods of [BaseConceptLearner]. *)
Inductive Exn := ValueError | AttributeError.

(** Modelled from the spec: the [Node] class ([ontolearn/search.py]) is
    not among the sources.  A node wraps a concept and has a parent link,
    [None] at the root; the parent chain of a node of the search tree ends
    at the root, so nodes form a finite tree. *)
Inductive Node :=
| RootNode (c : Generator.Concept)
| ChildNode (c : Generator.Concept) (parent : Node).

(** [node.concept] *)
Definition concept (n : Node) : Generator.Concept :=
  match n with
  | RootNode c => c
  | ChildNode c _ => c
  end.

(** [node.parent_node] *)
Definition parent_node (n : Node) : option Node :=
  match n with
  | RootNode _ => None
  | ChildNode _ p => Some p
  end.

(** [__get_metric_key(key)]; [quality_name] and [heuristic_name] are
    [self.quality_func.name] and [self.heuristic.name]. *)
Definition get_metric_key (quality_name heuristic_name key : string)
  : Exn + (string * string) :=
  if String.eqb key "quality" then inr (quality_name, key)
  else if String.eqb key "heuristic" then inr (heuristic_name, key)
  else if String.eqb key "length" then inr (key, key)
  else inl ValueError.

(** The loop [while concept_hiearhy[-1].parent_node is not None:
    concept_hiearhy.append(concept_hiearhy[-1].parent_node)], entered with
    [last] at the right end of the deque: the nodes it appends. *)
Fixpoint climb (last : Node) : list Node :=
  match last with
  | RootNode _ => []
  | ChildNode _ p => p :: climb p
  end.

(** The deque that [show_best_predictions] builds for one predicted node.
    It starts as [[pred_node.parent_node]]; when that is [None] the first
    test of the loop reads [None.parent_node], an [AttributeError].
    [pred_node] itself is put in front at the end. *)
Definition concept_hierarchy (pred_node : Node) : Exn + list Node :=
  match parent_node pred_node with
  | None => inl AttributeError
  | Some p => inr (pred_node :: p :: climb p)
  end.

(** The [for pred_node in predictions] loop: the hierarchies whose triples
    were added to the graph and serialized, and the exception that ended
    the loop, if any. *)
Fixpoint serialize_predictions (predictions : list Node)
  : list (list Node) * option Exn :=
  match predictions with
  | [] => ([], None)
  | pred_node :: rest =>
      match concept_hierarchy pred_node with
      | inl e => ([], Some e)
      | inr h => let (hs, e) := serialize_predictions rest in (h :: hs, e)
      end
  end.

(** [show_best_predictions(key, top_n, serialize_name)], with
    [predictions] standing for what [search_tree.show_best_nodes(top_n,
    key)] returned.  The RDF graph is a function of the hierarchies; the
    result lists the hierarchies that reached the file. *)
Definition show_best_predictions (quality_name heuristic_name : string)
           (predictions : list Node) (key : string)
           (serialize_name : option string)
  : list (list Node) * option Exn :=
  match serialize_name with
  | None => ([], None)
  | Some _ =>
      match get_metric_key quality_name heuristic_name key with
      | inl e => ([], Some e)
      | inr _ => serialize_predictions predictions
      end
  end.

(** A list of nodes in which each node is followed by its parent and the
    last one is a root. *)
Fixpoint parent_chain (l : list Node) : Prop :=
  match l with
  | [] => True
  | x :: tl => match tl with
               | [] => parent_node x = None
               | y :: _ => parent_node x = Some y
               end /\ parent_chain tl
  end.

Section ExtendOntology.

Context {KB : Type}.
Context (apply_type_enrichment : KB -> Generator.Concept -> KB).

(** The loop of [extend_ontology]: [for (ith, node) in
    enumerate(self.search_tree): if ith <= top_n_concepts:
    self.kb.apply_type_enrichment(node.concept) else: break]. *)
Fixpoint extend_loop (ith top_n_concepts : Z) (nodes : list Node) (kb : KB)
  : KB :=
  match nodes with
  | [] => kb
  | node :: rest =>
      if (ith <=? top_n_concepts)%Z
      then extend_loop (ith + 1)%Z top_n_concepts rest
                       (apply_type_enrichment kb (concept node))
      else kb
  end.

(** [extend_ontology(top_n_concepts, key)] up to the point where the
    knowledge base is saved; [nodes] are the nodes of the search tree in
    the order it yields them after sorting by [key]. *)
Definition extend_ontology (top_n_concepts : Z) (nodes : list Node) (kb : KB)
  : KB :=
  extend_loop 0 top_n_concepts nodes kb.

End ExtendOntology.

End Reports.


(** ** More concrete data *)

Module Toy2.

Import Generator.

(** A class without instances. *)
Definition E : Concept := Toy.atom 8 "http://ex.org/" "E" ∅.

(** A root node and a child of it. *)
Definition root_node : Reports.Node := Reports.RootNode Toy.Top.
Definition child_node : Reports.Node := Reports.ChildNode Toy.A root_node.

End Toy2.

(* ===================================================================== *)
(** * Part II: properties                                                 *)
(* ===================================================================== *)

(** ** Size-budget decomposition *)

Section UtilProperties.

Import Util.
Local Open Scope Z_scope.

(** The budget handed to a nested call is strictly smaller than the
    caller's, and the loop variable of the nested call starts no higher
    than the caller's current one. *)
Lemma nested_call_decreases (number i : Z) :
  1 <= i ->
  number - i - 1 < number /\ Z.min (number - i - 1) i <= i.
Proof. lia. Qed.

Lemma loop_fuel_nested (number i : Z) (fuel : nat) :
  1 <= i -> 1 < number - i ->
  (loop_fuel number i <= S fuel)%nat ->
  (loop_fuel (number - i - 1) (Z.min (number - i - 1) i) <= fuel)%nat.
Proof. unfold loop_fuel. lia. Qed.

Lemma loop_fuel_next (number i : Z) (fuel : nat) :
  1 <= i ->
  (loop_fuel number i <= S fuel)%nat ->
  (loop_fuel number (i - 1) <= fuel)%nat.
Proof. unfold loop_fuel. lia. Qed.

(** With [loop_fuel] units the loop runs to completion. *)
Lemma decompose_loop_total (fuel : nat) :
  forall number i bisher combosTmp,
    (loop_fuel number i <= fuel)%nat ->
    exists combos, decompose_loop fuel number i bisher combosTmp = Some combos.
Proof.
  induction fuel as [|fuel IH]; intros number i bisher combosTmp Hfuel.
  - unfold loop_fuel in Hfuel. lia.
  - cbn [decompose_loop].
    destruct (Z.leb_spec 1 i) as [Hi|Hi]; [|eauto].
    destruct (Z.ltb_spec 1 (number - i)) as [Hrec|Hrec].
    + destruct (IH (number - i - 1) (Z.min (number - i - 1) i)
                   (if i =? 0 then bisher ++ [i]
                    else if negb (number - i =? 1) then bisher ++ [i]
                         else [])
                   combosTmp) as [c1 Hc1].
      { by apply loop_fuel_nested. }
      rewrite Hc1. apply IH. by apply loop_fuel_next.
    + destruct (number - i =? 0); apply IH; by apply loop_fuel_next.
Qed.

(** Spare fuel does not change the result. *)
Lemma decompose_loop_more_fuel (fuel : nat) :
  forall number i bisher combosTmp combos (extra : nat),
    decompose_loop fuel number i bisher combosTmp = Some combos ->
    decompose_loop (fuel + extra) number i bisher combosTmp = Some combos.
Proof.
  induction fuel as [|fuel IH]; intros number i bisher combosTmp combos extra.
  - discriminate.
  - cbn [decompose_loop Nat.add].
    destruct (1 <=? i); [|done].
    destruct (1 <? number - i).
    + destruct (decompose_loop fuel (number - i - 1) _ _ combosTmp)
        as [c1|] eqn:Hc1; [|discriminate].
      rewrite (IH _ _ _ _ _ extra Hc1). apply IH.
    + destruct (number - i =? 0); apply IH.
Qed.

Lemma non_increasing_cons (x : Z) (l : list Z) (cap : Z) :
  non_increasing l -> Forall (fun y => 1 <= y <= cap) l -> cap <= x ->
  non_increasing (x :: l).
Proof.
  intros Hl Hb Hcap. destruct l as [|y l]; [done|].
  split; [|done]. inversion Hb; subst. lia.
Qed.

Lemma combo_ok_cap (number cap cap' : Z) (combo : list Z) :
  cap <= cap' -> combo_ok number cap combo -> combo_ok number cap' combo.
Proof.
  intros Hcap (Hni & Hb & Hs). split; [done|split; [|done]].
  eapply Forall_impl; [exact Hb|]. cbn. intros; lia.
Qed.

Lemma combo_ok_single (number : Z) :
  1 <= number -> combo_ok number number [number].
Proof.
  intros Hn. split; [|split].
  - by cbn.
  - constructor; [lia|constructor].
  - cbn. lia.
Qed.

Lemma combo_ok_cons (number i : Z) (tail : list Z) :
  1 <= i ->
  combo_ok (number - i - 1) (Z.min (number - i - 1) i) tail ->
  combo_ok number i (i :: tail).
Proof.
  intros Hi (Hni & Hb & Hs). split; [|split].
  - eapply non_increasing_cons; [done|exact Hb|lia].
  - constructor; [lia|]. eapply Forall_impl; [exact Hb|]. cbn. intros; lia.
  - cbn [sum_list fold_right length] in *. fold (sum_list tail). lia.
Qed.

(** What one run of the loop adds to [combosTmp]: lists that extend
    [bisher] by a valid decomposition of [number] whose parts are capped
    by the loop variable. *)
Lemma decompose_loop_spec (fuel : nat) :
  forall number i bisher combosTmp combos,
    decompose_loop fuel number i bisher combosTmp = Some combos ->
    exists new,
      combos = combosTmp ++ new
      /\ Forall (fun c => exists tail,
                     c = bisher ++ tail /\ combo_ok number i tail) new.
Proof.
  induction fuel as [|fuel IH]; intros number i bisher combosTmp combos.
  - discriminate.
  - cbn [decompose_loop].
    destruct (Z.leb_spec 1 i) as [Hi|Hi].
    2:{ intros [= <-]. exists []. by rewrite app_nil_r. }
    assert (Hi0 : (i =? 0) = false) by lia. rewrite Hi0.
    assert (Hweak : forall new2 : list (list Z),
               Forall (fun c => exists tail,
                           c = bisher ++ tail
                           /\ combo_ok number (i - 1) tail) new2 ->
               Forall (fun c => exists tail,
                           c = bisher ++ tail /\ combo_ok number i tail) new2).
    { intros new2 Hnew2. eapply Forall_impl; [exact Hnew2|].
      intros c (tail & -> & Hok).
      exists tail. split; [done|]. eapply combo_ok_cap; [|exact Hok]. lia. }
    destruct (Z.ltb_spec 1 (number - i)) as [Hrec|Hrec].
    + assert (Hne : (number - i =? 1) = false) by lia. rewrite Hne. cbn [negb].
      destruct (decompose_loop fuel (number - i - 1) _ _ combosTmp)
        as [c1|] eqn:Hc1; [|discriminate].
      intros Hrest.
      apply IH in Hc1 as (new1 & -> & Hnew1).
      apply IH in Hrest as (new2 & -> & Hnew2).
      exists (new1 ++ new2). split; [by rewrite <- app_assoc|].
      apply Forall_app. split; [|by apply Hweak].
      eapply Forall_impl; [exact Hnew1|].
      intros c (tail & -> & Hok). exists (i :: tail).
      split; [by rewrite <- app_assoc|]. by apply combo_ok_cons.
    + destruct (Z.eqb_spec (number - i) 0) as [Hz|Hz].
      * assert (Hne : (number - i =? 1) = false) by lia.
        rewrite Hne. cbn [negb]. intros Hrest.
        apply IH in Hrest as (new2 & -> & Hnew2).
        exists ([bisher ++ [i]] ++ new2). split; [by rewrite <- app_assoc|].
        apply Forall_app. split; [|by apply Hweak].
        constructor; [|constructor]. exists [i]. split; [done|].
        replace number with i by lia. apply combo_ok_single. lia.
      * intros Hrest. apply IH in Hrest as (new2 & -> & Hnew2).
        exists new2. split; [done|]. by apply Hweak.
Qed.

(** With room for every nested call the decomposition returns a list on
    every input: for all integers, [decompose] and [getCombos] return once
    they are given the fuel [loop_fuel] computes from the budget and the
    starting value of the loop variable, and any additional fuel leaves
    the result unchanged.  The bound exists because each nested call
    receives a strictly smaller budget ([nested_call_decreases]). *)
Theorem getCombos_terminates (length max_length : Z) :
  (forall (number upperlimit : Z) (bisher : list Z)
          (combosTmp : list (list Z)),
      exists combos, forall extra : nat,
        decompose (loop_fuel number (Z.min number upperlimit) + extra)
                  number upperlimit bisher combosTmp = Some combos)
  /\ exists combos, forall extra : nat,
      getCombos (combos_fuel length max_length + extra) length max_length
      = Some combos.
Proof.
  assert (Hdec : forall (number upperlimit : Z) (bisher : list Z)
                        (combosTmp : list (list Z)),
             exists combos, forall extra : nat,
               decompose (loop_fuel number (Z.min number upperlimit) + extra)
                         number upperlimit bisher combosTmp = Some combos).
  { intros number upperlimit bisher combosTmp. unfold decompose.
    destruct (decompose_loop_total
                (loop_fuel number (Z.min number upperlimit))
                number (Z.min number upperlimit) bisher combosTmp)
      as [combos Hc]; [lia|].
    exists combos. intros extra. by apply decompose_loop_more_fuel. }
  split; [exact Hdec|].
  unfold getCombos, combos_fuel. apply Hdec.
Qed.

(** *** On the call stack of CPython *)

Lemma enter_Some (py : Interpreter) (limit frames : nat) :
  enter py limit = Some frames -> limit = S frames.
Proof.
  unfold enter. destruct limit as [|n]; [done|].
  destruct (n <? min_room py)%nat; [done|]. by intros [= ->].
Qed.

Lemma enter_room (py : Interpreter) (frames : nat) :
  (min_room py <= frames)%nat -> enter py (S frames) = Some frames.
Proof.
  intros Hroom. unfold enter.
  by destruct (Nat.ltb_spec frames (min_room py)) as [?|_]; [lia|].
Qed.

Lemma copy_append_room (py : Interpreter) (frames : nat) bisher i :
  (copy_room py <= frames)%nat ->
  copy_append py frames bisher i = inr (bisher ++ [i]).
Proof.
  intros Hroom. unfold copy_append.
  by destruct (Nat.ltb_spec frames (copy_room py)) as [?|_]; [lia|].
Qed.

(** With [loop_fuel] units a run ends, in a list or in [RecursionError]. *)
Lemma decompose_loop_limited_total (py : Interpreter) (fuel : nat) :
  forall frames number i bisher combosTmp,
    (loop_fuel number i <= fuel)%nat ->
    exists outcome,
      decompose_loop_limited py fuel frames number i bisher
                             combosTmp
      = Some outcome.
Proof.
  induction fuel as [|fuel IH]; intros frames number i bisher combosTmp Hfuel.
  - unfold loop_fuel in Hfuel. lia.
  - cbn [decompose_loop_limited].
    destruct (Z.leb_spec 1 i) as [Hi|Hi]; [|eauto].
    destruct (if i =? 0 then inr (bisher ++ [i])
              else if negb (number - i =? 1) then copy_append py frames bisher i
                   else inr []) as [e|newbisher]; [eauto|].
    destruct (Z.ltb_spec 1 (number - i)) as [Hrec|Hrec].
    + destruct (enter py frames) as [frames'|]; [|eauto].
      destruct (IH frames' (number - i - 1) (Z.min (number - i - 1) i)
                   newbisher combosTmp) as [c1 Hc1].
      { by apply loop_fuel_nested. }
      rewrite Hc1. destruct c1 as [e|c1]; [eauto|].
      apply IH. by apply loop_fuel_next.
    + destruct (number - i =? 0); apply IH; by apply loop_fuel_next.
Qed.

(** Spare fuel does not change how a run ends. *)
Lemma decompose_loop_limited_more_fuel (py : Interpreter)
      (fuel : nat) :
  forall frames number i bisher combosTmp outcome (extra : nat),
    decompose_loop_limited py fuel frames number i bisher
                           combosTmp
    = Some outcome ->
    decompose_loop_limited py (fuel + extra) frames number i
                           bisher combosTmp
    = Some outcome.
Proof.
  induction fuel as [|fuel IH];
    intros frames number i bisher combosTmp outcome extra.
  - discriminate.
  - cbn [decompose_loop_limited Nat.add].
    destruct (1 <=? i); [|done].
    destruct (if i =? 0 then inr (bisher ++ [i])
              else if negb (number - i =? 1) then copy_append py frames bisher i
                   else inr []) as [e|newbisher]; [done|].
    destruct (1 <? number - i).
    + destruct (enter py frames) as [frames'|]; [|done].
      destruct (decompose_loop_limited py fuel frames'
                                       (number - i - 1) _ _ combosTmp)
        as [c1|] eqn:Hc1; [|discriminate].
      rewrite (IH _ _ _ _ _ _ extra Hc1). destruct c1; [done|]. apply IH.
    + destruct (number - i =? 0); apply IH.
Qed.

(** A run that returns a list returns the list of the run without a
    stack. *)
Lemma decompose_loop_limited_agrees (py : Interpreter) (fuel : nat) :
  forall frames number i bisher combosTmp combos,
    decompose_loop_limited py fuel frames number i bisher
                           combosTmp
    = Some (inr combos) ->
    decompose_loop fuel number i bisher combosTmp = Some combos.
Proof.
  induction fuel as [|fuel IH];
    intros frames number i bisher combosTmp combos.
  - discriminate.
  - cbn [decompose_loop decompose_loop_limited].
    destruct (1 <=? i); [|by intros [= <-]].
    destruct (if i =? 0 then inr (bisher ++ [i])
              else if negb (number - i =? 1) then copy_append py frames bisher i
                   else inr []) as [e|newbisher] eqn:Hnew; [discriminate|].
    assert (Hsame : (if i =? 0 then bisher ++ [i]
                     else if negb (number - i =? 1) then bisher ++ [i]
                          else [])
                    = newbisher).
    { unfold copy_append in Hnew.
      destruct (i =? 0), (negb (number - i =? 1)),
        (frames <? copy_room py)%nat; congruence. }
    rewrite Hsame. clear Hnew Hsame.
    destruct (1 <? number - i).
    + destruct (enter py frames) as [frames'|];
        [|discriminate].
      destruct (decompose_loop_limited py fuel frames'
                                       (number - i - 1) _ _ combosTmp)
        as [[e|c1]|] eqn:Hc1; [discriminate| |discriminate].
      rewrite (IH _ _ _ _ _ _ Hc1). apply IH.
    + destruct (number - i =? 0); apply IH.
Qed.

(** A budget of [number] nests at most [(number - 1) / 2] calls of
    [decompose] below the running one; with a unit for each of them and
    the room for the calls of the last body, the run goes as without a
    stack. *)
Lemma decompose_loop_limited_enough (py : Interpreter) (fuel : nat) :
  forall frames number i bisher combosTmp combos,
    (body_room py <= frames)%nat ->
    number - 1 + 2 * Z.of_nat (body_room py) <= 2 * Z.of_nat frames ->
    decompose_loop fuel number i bisher combosTmp = Some combos ->
    decompose_loop_limited py fuel frames number i bisher combosTmp
    = Some (inr combos).
Proof.
  induction fuel as [|fuel IH];
    intros frames number i bisher combosTmp combos Hbody Hframes.
  - discriminate.
  - cbn [decompose_loop decompose_loop_limited].
    destruct (Z.leb_spec 1 i) as [Hi|Hi]; [|by intros [= <-]].
    rewrite copy_append_room by (unfold body_room in Hbody; lia).
    assert (Hnew : (if i =? 0 then inr (bisher ++ [i])
                    else if negb (number - i =? 1)
                         then @inr Raised _ (bisher ++ [i])
                         else inr [])
                   = inr (if i =? 0 then bisher ++ [i]
                          else if negb (number - i =? 1) then bisher ++ [i]
                               else [])).
    { by destruct (i =? 0), (negb (number - i =? 1)). }
    rewrite Hnew. clear Hnew.
    destruct (Z.ltb_spec 1 (number - i)) as [Hrec|Hrec].
    + destruct (decompose_loop fuel (number - i - 1) _ _ combosTmp)
        as [c1|] eqn:Hc1; [|discriminate].
      destruct frames as [|frames]; [lia|].
      assert (Hbody' : (body_room py <= frames)%nat) by lia.
      assert (Hnested : number - i - 1 - 1 + 2 * Z.of_nat (body_room py)
                        <= 2 * Z.of_nat frames) by lia.
      rewrite enter_room by (unfold body_room in Hbody'; lia).
      rewrite (IH frames _ _ _ _ _ Hbody' Hnested Hc1). by apply IH.
    + destruct (number - i =? 0); by apply IH.
Qed.

(** With fewer frames than half the budget the loop, once entered, ends
    in [RecursionError]: its last round, with the loop variable at 1,
    nests deepest. *)
Lemma decompose_loop_limited_raises (py : Interpreter) (fuel : nat) :
  forall frames number i bisher combosTmp,
    (loop_fuel number i <= fuel)%nat ->
    1 <= i -> 2 * Z.of_nat frames + 2 < number ->
    decompose_loop_limited py fuel frames number i bisher
                           combosTmp
    = Some (inl RecursionError).
Proof.
  induction fuel as [|fuel IH];
    intros frames number i bisher combosTmp Hfuel Hi Hdeep.
  - unfold loop_fuel in Hfuel. lia.
  - cbn [decompose_loop_limited].
    destruct (Z.leb_spec 1 i) as [_|?]; [|lia].
    destruct (if i =? 0 then inr (bisher ++ [i])
              else if negb (number - i =? 1) then copy_append py frames bisher i
                   else inr []) as [[]|newbisher]; [done|].
    destruct (Z.ltb_spec 1 (number - i)) as [Hrec|Hrec].
    + destruct (enter py frames) as [frames'|] eqn:Henter;
        [|done].
      apply enter_Some in Henter as ->.
      destruct (decompose_loop_limited_total
                  py fuel frames' (number - i - 1)
                  (Z.min (number - i - 1) i) newbisher combosTmp)
        as [[[]|c1] Hc1].
      { by apply loop_fuel_nested. }
      * by rewrite Hc1.
      * rewrite Hc1. destruct (decide (i = 1)) as [->|Hne].
        -- rewrite IH in Hc1; [discriminate| |lia|lia].
           apply loop_fuel_nested; [lia|lia|done].
        -- apply IH; [by apply loop_fuel_next|lia|lia].
    + destruct (number - i =? 0);
        (apply IH; [by apply loop_fuel_next|lia|lia]).
Qed.

(** C8, as the code has it.  For all integers, [decompose] and
    [getCombos] end after finitely many steps, because each nested call
    receives a strictly smaller budget: the fuel [loop_fuel] computes is
    enough and spare fuel changes nothing.  How [getCombos] ends depends
    on the room [limit] left when it calls [decompose].  It returns its
    list, the one computed without regard to the stack, whenever there
    is room for [(length + 1) / 2] nested calls and the calls of the
    last body: [limit >= 1 + body_room] and
    [length + 1 + 2 * body_room <= 2 * limit].  It ends in
    [RecursionError] whenever [limit] is 0, or [max_length >= 1] and
    [length > 2 * limit].  This holds on every interpreter. *)
Theorem getCombos_returns_or_raises (py : Interpreter) (limit : nat)
        (length max_length : Z) :
  (forall number upperlimit bisher combosTmp,
      exists outcome,
        forall extra : nat,
          decompose_limited py
                            (loop_fuel number (Z.min number upperlimit)
                             + extra)
                            limit number upperlimit bisher combosTmp
          = Some outcome)
  /\ exists outcome,
      (forall extra : nat,
          getCombos_limited py (combos_fuel length max_length + extra)
                            limit length max_length
          = Some outcome)
      /\ ((1 + body_room py <= limit)%nat
          /\ length + 1 + 2 * Z.of_nat (body_room py) <= 2 * Z.of_nat limit ->
          exists combos, outcome = inr combos)
      /\ (limit = 0%nat \/ (1 <= max_length /\ 2 * Z.of_nat limit < length) ->
          outcome = inl RecursionError)
      /\ (forall combos,
             outcome = inr combos ->
             forall extra : nat,
               getCombos (combos_fuel length max_length + extra)
                         length max_length
               = Some combos).
Proof.
  split.
  - intros number upperlimit bisher combosTmp. unfold decompose_limited.
    destruct (enter py limit) as [frames|]; [|by eexists].
    destruct (decompose_loop_limited_total
                py (loop_fuel number (Z.min number upperlimit)) frames number
                (Z.min number upperlimit) bisher combosTmp)
      as [outcome Hrun]; [done|].
    exists outcome. intros extra. by apply decompose_loop_limited_more_fuel.
  - unfold getCombos_limited, decompose_limited, getCombos, decompose,
      combos_fuel.
    destruct (enter py limit) as [frames|] eqn:Henter.
    2:{ exists (inl RecursionError). split; [done|].
        split; [|split; done].
        intros [Hlimit _]. destruct limit as [|n]; [lia|].
        rewrite enter_room in Henter; [done|].
        unfold body_room in Hlimit. lia. }
    apply enter_Some in Henter as ->.
    destruct (decompose_loop_limited_total
                py (loop_fuel length (Z.min length max_length)) frames length
                (Z.min length max_length) [] [])
      as [outcome Hrun]; [done|].
    exists outcome. split; [|split; [|split]].
    + intros extra. by apply decompose_loop_limited_more_fuel.
    + intros [Hlimit Hroom].
      destruct (decompose_loop_total
                  (loop_fuel length (Z.min length max_length)) length
                  (Z.min length max_length) [] [])
        as [combos Hplain]; [done|].
      exists combos.
      rewrite (decompose_loop_limited_enough _ _ frames _ _ _ _ combos)
        in Hrun; [congruence|lia|lia|done].
    + intros [?|[Hmax Hdeep]]; [done|].
      rewrite decompose_loop_limited_raises in Hrun; [congruence|done|lia|lia].
    + intros combos -> extra. apply decompose_loop_more_fuel.
      by eapply decompose_loop_limited_agrees.
Qed.

(** C8 as the specification words it fails: [getCombos(2001, 1)] stacks
    1001 frames of [decompose], one per part of the single combination
    of 1001 ones.  With the 1000 units of the default recursion limit,
    all of them free, the call ends in [RecursionError] and returns
    nothing, on either interpreter; the combination is returned once
    there is room for the 1001 frames and for the calls made from the
    last of them. *)
Lemma getCombos_2001_1_raises_RecursionError :
  getCombos_limited cpython_3_11 (combos_fuel 2001 1) 1000 2001 1
  = Some (inl RecursionError)
  /\ getCombos_limited frames_only (combos_fuel 2001 1) 1000 2001 1
     = Some (inl RecursionError)
  /\ getCombos_limited cpython_3_11 (combos_fuel 2001 1) 1003 2001 1
     = Some (inr [repeat 1 1001])
  /\ getCombos_limited frames_only (combos_fuel 2001 1) 1002 2001 1
     = Some (inr [repeat 1 1001]).
Proof. repeat split; vm_compute; reflexivity. Qed.

(** C10.  For positive [length] and [max_length], every list returned by
    [getCombos length max_length] is a non-increasing sequence of
    positive integers, each at most [min(length, max_length)], with
    [sum(combo) + (len(combo) - 1) = length]. *)
Theorem getCombos_combos_ok (fuel : nat) (length max_length : Z)
        (combos : list (list Z)) :
  0 < length -> 0 < max_length ->
  getCombos fuel length max_length = Some combos ->
  Forall (combo_ok length (Z.min length max_length)) combos.
Proof.
  intros _ _ Hrun. unfold getCombos, decompose in Hrun.
  apply decompose_loop_spec in Hrun as (new & -> & Hnew).
  cbn [app]. eapply Forall_impl; [exact Hnew|].
  intros c (tail & -> & Hok). exact Hok.
Qed.

(** The four combinations of the budget 5. *)
Lemma getCombos_combos_ok_witness :
  getCombos 20 5 5 = Some [[5]; [3; 1]; [2; 2]; [1; 1; 1]]
  /\ Forall (combo_ok 5 (Z.min 5 5)) [[5]; [3; 1]; [2; 2]; [1; 1; 1]].
Proof.
  split; [reflexivity|].
  apply (getCombos_combos_ok 20 5 5); [lia|lia|reflexivity].
Defined.

End UtilProperties.

(** ** F1 score *)

Section EvaluationProperties.

Import Evaluation.
Local Open Scope Q_scope.

Lemma true_div_zero (a b : Z) : true_div a b = None <-> b = 0%Z.
Proof.
  unfold true_div. destruct (Z.eqb_spec b 0); split; intros; congruence.
Qed.

Lemma inject_Z_pos (a : Z) : (0 < a)%Z -> 0 < inject_Z a.
Proof. intros Ha. change 0 with (inject_Z 0). by rewrite <- Zlt_Qlt. Qed.

Lemma inject_Z_nonneg (a : Z) : (0 <= a)%Z -> 0 <= inject_Z a.
Proof. intros Ha. change 0 with (inject_Z 0). by rewrite <- Zle_Qle. Qed.

Lemma Qpos_neq_0 (q : Q) : 0 < q -> ~ q == 0.
Proof. intros Hq Heq. rewrite Heq in Hq. by apply Qlt_irrefl in Hq. Qed.

(** The harmonic mean of precision and recall in the closed form, over
    the rationals. *)
Lemma harmonic_mean_closed_form (a b c : Q) :
  0 < a -> 0 <= b -> 0 <= c ->
  2 * (((a / (a + b)) * (a / (a + c))) / (a / (a + b) + a / (a + c)))
  == a / (a + (1 # 2) * (b + c)).
Proof.
  intros Ha Hb Hc.
  assert (Hab : 0 < a + b).
  { apply Qlt_le_trans with (a + 0); [by rewrite Qplus_0_r|].
    by apply Qplus_le_r. }
  assert (Hac : 0 < a + c).
  { apply Qlt_le_trans with (a + 0); [by rewrite Qplus_0_r|].
    by apply Qplus_le_r. }
  assert (Hbc : 0 <= b + c).
  { replace 0 with (0 + 0) by reflexivity. by apply Qplus_le_compat. }
  assert (Hden : 0 < a + (1 # 2) * (b + c)).
  { apply Qlt_le_trans with (a + 0); [by rewrite Qplus_0_r|].
    apply Qplus_le_r. by apply Qmult_le_0_compat. }
  assert (Hsum : 0 < a * (a + c) + a * (a + b)).
  { apply Qlt_le_trans with (a * (a + c) + 0).
    - rewrite Qplus_0_r. by apply Qmult_lt_0_compat.
    - apply Qplus_le_r. apply Qmult_le_0_compat; by apply Qlt_le_weak. }
  field. repeat split; try by apply Qpos_neq_0.
Qed.

Context `{Countable Ind}.

(** The exact value of the expression [compute_f1_score] evaluates equals
    [tp / (tp + ½ (fp + fn))] with [tp = |pos ∩ individuals|],
    [fp = |neg ∩ individuals|] and [fn = |pos ∖ individuals|], and is [0]
    when precision or recall is zero or undefined (that is, when [tp] is
    [0]). *)
Theorem compute_f1_score_closed_form (individuals pos neg : gset Ind) :
  compute_f1_score individuals pos neg
  == f1_closed_form (true_pos individuals pos)
                    (false_pos individuals neg)
                    (false_neg individuals pos).
Proof.
  unfold compute_f1_score, f1_closed_form, true_pos, false_pos, false_neg.
  set (tp := Z.of_nat (size (pos ∩ individuals))).
  set (fp := Z.of_nat (size (neg ∩ individuals))).
  set (fn := Z.of_nat (size (pos ∖ individuals))).
  assert (Htp : (0 <= tp)%Z) by (subst tp; lia).
  assert (Hfp : (0 <= fp)%Z) by (subst fp; lia).
  assert (Hfn : (0 <= fn)%Z) by (subst fn; lia).
  clearbody tp fp fn.
  destruct (Z.eqb_spec tp 0) as [->|Htp0].
  - unfold true_div. rewrite orb_true_r, !Z.add_0_l.
    destruct (fn =? 0)%Z; [reflexivity|].
    destruct (fp =? 0)%Z; [reflexivity|].
    assert (Hz : Qeq_bool (inject_Z 0 / inject_Z fp) 0 = true).
    { apply Qeq_bool_iff. unfold Qdiv. by rewrite Qmult_0_l. }
    by rewrite Hz.
  - unfold true_div.
    assert (H1 : (tp + fn =? 0)%Z = false) by lia.
    assert (H2 : (tp + fp =? 0)%Z = false) by lia.
    rewrite H1, H2. cbn [orb].
    assert (Ha : 0 < inject_Z tp) by (apply inject_Z_pos; lia).
    assert (Hb : 0 <= inject_Z fp) by by apply inject_Z_nonneg.
    assert (Hc : 0 <= inject_Z fn) by by apply inject_Z_nonneg.
    assert (Hp : Qeq_bool (inject_Z tp / inject_Z (tp + fp)) 0 = false).
    { apply not_true_iff_false. rewrite Qeq_bool_iff.
      apply Qpos_neq_0. apply Qlt_shift_div_l.
      - apply inject_Z_pos. lia.
      - by rewrite Qmult_0_l. }
    assert (Hr : Qeq_bool (inject_Z tp / inject_Z (tp + fn)) 0 = false).
    { apply not_true_iff_false. rewrite Qeq_bool_iff.
      apply Qpos_neq_0. apply Qlt_shift_div_l.
      - apply inject_Z_pos. lia.
      - by rewrite Qmult_0_l. }
    rewrite Hp, Hr. cbn [orb].
    rewrite !inject_Z_plus.
    rewrite <- (harmonic_mean_closed_form _ _ _ Ha Hb Hc).
    reflexivity.
Qed.

(** *** The float the code returns *)

Lemma compute_f1_score_binary64_counts (individuals pos neg : gset Ind) :
  compute_f1_score_binary64 individuals pos neg
  = f1_of_counts_binary64 (true_pos individuals pos)
                          (false_pos individuals neg)
                          (false_neg individuals pos).
Proof. reflexivity. Qed.

(** Every triple of counts up to 32, by evaluation. *)
Lemma binary64_close_table :
  forallb (fun tp =>
    forallb (fun fp =>
      forallb (fun fn =>
        binary64_close
          (f1_of_counts_binary64 (Z.of_nat tp) (Z.of_nat fp) (Z.of_nat fn))
          (f1_closed_form_binary64 (Z.of_nat tp) (Z.of_nat fp) (Z.of_nat fn)))
        (seq 0 33)) (seq 0 33)) (seq 0 33)
  = true.
Proof. vm_compute. reflexivity. Qed.

Lemma binary64_close_upto (tp fp fn : nat) :
  (tp <= 32)%nat -> (fp <= 32)%nat -> (fn <= 32)%nat ->
  binary64_close
    (f1_of_counts_binary64 (Z.of_nat tp) (Z.of_nat fp) (Z.of_nat fn))
    (f1_closed_form_binary64 (Z.of_nat tp) (Z.of_nat fp) (Z.of_nat fn))
  = true.
Proof.
  intros Htp Hfp Hfn. pose proof binary64_close_table as Htable.
  rewrite forallb_forall in Htable.
  specialize (Htable tp ltac:(apply in_seq; lia)).
  rewrite forallb_forall in Htable.
  specialize (Htable fp ltac:(apply in_seq; lia)).
  rewrite forallb_forall in Htable.
  exact (Htable fn ltac:(apply in_seq; lia)).
Qed.

End EvaluationProperties.



(** ** Learner construction *)

Section LearnerProperties.

Import Learner.

Context `{Collaborators}.

(** Without a knowledge base nothing else is looked at. *)
Lemma init_without_kb refinement_operator quality_func0 heuristic_func
      search_tree0 terminate_on_goal0 iter_bound0 max_child_length verbose0
      max_num_of_concepts_tested0 ignored_concepts root_concept :
  init None refinement_operator quality_func0 heuristic_func search_tree0
       terminate_on_goal0 iter_bound0 max_child_length verbose0
       max_num_of_concepts_tested0 ignored_concepts root_concept
  = inl Generator.AssertionError.
Proof. reflexivity. Qed.

(** C7, as the code has it.  A learner built without a knowledge base (or
    with a falsy one) fails at construction with an [AssertionError].  A
    refinement operator, quality function, heuristic function, search
    tree or root concept that is missing does not make construction
    fail: each is replaced by its default ([ModifiedCELOERefinement] over
    the knowledge base, [F1], [CELOEHeuristic], [CELOESearchTree] over
    the quality and heuristic functions in force, [kb.thing]), a search
    tree that is supplied is handed those two functions, and construction
    succeeds with these values whenever they are truthy. *)
Theorem init_defaults
        (knowledge_base : option KnowledgeBase)
        (refinement_operator : option RefinementOperator)
        (quality_func0 : option QualityFunc)
        (heuristic_func : option HeuristicFunc)
        (search_tree0 : option SearchTree)
        (terminate_on_goal0 : bool) (iter_bound0 max_child_length : Z)
        (verbose0 : bool) (max_num_of_concepts_tested0 : option Z)
        (ignored_concepts : option (list string))
        (root_concept : option RootConcept) :
  (match knowledge_base with
   | None => True
   | Some kb0 => kb_truthy kb0 = false
   end ->
   init knowledge_base refinement_operator quality_func0 heuristic_func
        search_tree0 terminate_on_goal0 iter_bound0 max_child_length
        verbose0 max_num_of_concepts_tested0 ignored_concepts root_concept
   = inl Generator.AssertionError)
  /\ (forall kb0,
         knowledge_base = Some kb0 ->
         kb_truthy kb0 = true ->
         concept_truthy (or_default root_concept (thing kb0)) = true ->
         quality_truthy (or_default quality_func0 F1) = true ->
         heuristic_truthy (or_default heuristic_func CELOEHeuristic) = true ->
         rho_truthy
           (set_concepts_node_mapping
              (or_default refinement_operator
                          (ModifiedCELOERefinement kb0 max_child_length)))
         = true ->
         exists learner,
           init knowledge_base refinement_operator quality_func0
                heuristic_func search_tree0 terminate_on_goal0 iter_bound0
                max_child_length verbose0 max_num_of_concepts_tested0
                ignored_concepts root_concept
           = inr learner
           /\ kb learner = kb0
           /\ rho learner
              = set_concepts_node_mapping
                  (or_default refinement_operator
                              (ModifiedCELOERefinement kb0 max_child_length))
           /\ quality_func learner = or_default quality_func0 F1
           /\ heuristic learner = or_default heuristic_func CELOEHeuristic
           /\ search_tree learner
              = match search_tree0 with
                | None =>
                    CELOESearchTree
                      (or_default quality_func0 F1)
                      (or_default heuristic_func CELOEHeuristic)
                | Some t =>
                    set_heuristic_func
                      (set_quality_func t (or_default quality_func0 F1))
                      (or_default heuristic_func CELOEHeuristic)
                end
           /\ start_class learner = or_default root_concept (thing kb0)).
Proof.
  split.
  - destruct knowledge_base as [kb0|]; [|reflexivity].
    intros Hkb. unfold init. by rewrite Hkb.
  - intros kb0 -> Hkb Hstart Hq Hh Hrho. unfold init.
    rewrite Hkb, Hstart, Hq, Hh, Hrho. cbn [negb].
    eexists. split; [reflexivity|]. cbn. done.
Qed.

End LearnerProperties.

(** C7 as the specification words it fails: with a knowledge base and
    nothing else supplied (no refinement operator, quality function,
    heuristic function or root concept), construction returns a learner. *)
Lemma init_missing_collaborators_no_error :
  ~ Learner.all_supplied (H := Learner.unit_collaborators)
      (Some tt) None None None None
  /\ exists learner,
      Learner.init (H := Learner.unit_collaborators)
                   (Some tt) None None None None true 10 10 true None None
                   None
      = inr learner.
Proof.
  split.
  - intros (_ & [x Hx] & _). discriminate.
  - eexists. reflexivity.
Qed.

(** A knowledge base alone is enough to build a learner. *)
Lemma init_defaults_witness :
  exists learner,
    Learner.init (H := Learner.unit_collaborators)
                 (Some tt) None None None None true 10 10 true None None None
    = inr learner.
Proof.
  destruct (init_defaults (H := Learner.unit_collaborators)
              (Some tt) None None None None true 10 10 true None None None)
    as [_ Hok].
  destruct (Hok tt eq_refl eq_refl eq_refl eq_refl eq_refl eq_refl)
    as (learner & Hinit & _).
  exists learner. exact Hinit.
Defined.

(** ** Concept generator *)

Section RestrictionExtensions.

Import Generator.
Local Open Scope string_scope.

(** *** The extensions the two restriction branches compute *)

Lemma existential_fold_spec (filler : gset nat) (relations : list (nat * nat)) :
  forall (acc : gset nat) (x : nat),
    x ∈ fold_left (fun (temp : gset nat) (xy : nat * nat) =>
                     if decide (xy.2 ∈ filler) then temp ∪ {[ xy.1 ]} else temp)
                  relations acc
    <-> x ∈ acc \/ exists y, (x, y) ∈ relations /\ y ∈ filler.
Proof.
  induction relations as [|[s o] relations IH]; intros acc x; cbn [fold_left].
  - set_solver.
  - rewrite IH. cbn. case_decide; set_solver.
Qed.

Lemma universal_fold_spec (filler : gset nat) (relations : list (nat * nat)) :
  forall (acc : gset nat) (x : nat),
    x ∈ fold_left (fun (temp : gset nat) (so : nat * nat) =>
                     if decide (so.2 ∈ filler) then temp else temp ∪ {[ so.2 ]})
                  relations acc
    <-> x ∈ acc \/ ((exists s, (s, x) ∈ relations) /\ x ∉ filler).
Proof.
  induction relations as [|[s o] relations IH]; intros acc x; cbn [fold_left].
  - set_solver.
  - rewrite IH. cbn. case_decide; set_solver.
Qed.

Lemma elem_of_existential_instances (g : ConceptGenerator) (role : Role)
      (filler : Concept) (x : nat) :
  x ∈ get_instances_for_restrictions g true role filler
  <-> exists y, (x, y) ∈ get_relations role /\ y ∈ instances filler.
Proof.
  unfold get_instances_for_restrictions. rewrite existential_fold_spec.
  set_solver.
Qed.

(** The universal branch removes from Top the *objects* of the role that
    lie outside the filler. *)
Lemma elem_of_universal_instances (g : ConceptGenerator) (role : Role)
      (filler : Concept) (x : nat) :
  x ∈ get_instances_for_restrictions g false role filler
  <-> x ∈ instances (T g)
      /\ ((exists s, (s, x) ∈ get_relations role) -> x ∈ instances filler).
Proof.
  unfold get_instances_for_restrictions.
  rewrite elem_of_difference, universal_fold_spec.
  destruct (decide (x ∈ instances filler)); set_solver.
Qed.

Lemma elem_of_universal_extension (domain : gset nat)
      (relations : list (nat * nat)) (filler : gset nat) (x : nat) :
  x ∈ universal_extension domain relations filler
  <-> x ∈ domain /\ forall y, (x, y) ∈ relations -> y ∈ filler.
Proof.
  unfold universal_extension. rewrite elem_of_filter, Forall_forall.
  split.
  - intros [Hall Hdom]. split; [done|].
    intros y Hy. by apply (Hall (x, y)).
  - intros [Hdom Hall]. split; [|done].
    intros [s o] Hso Hs. cbn in *. subst. by apply Hall.
Qed.

Lemma existential_instances_textbook (g : ConceptGenerator) (role : Role)
      (filler : Concept) :
  get_instances_for_restrictions g true role filler
  = existential_extension (get_relations role) (instances filler).
Proof.
  apply set_eq. intros x. rewrite elem_of_existential_instances.
  unfold existential_extension. rewrite elem_of_list_to_set, list_elem_of_fmap.
  split.
  - intros (y & Hy & Hf). exists (x, y). split; [done|].
    apply list_elem_of_In, filter_In. split; [by apply list_elem_of_In|].
    by apply bool_decide_eq_true_2.
  - intros ([s o] & -> & Hin). apply list_elem_of_In, filter_In in Hin as [Hin Hf].
    exists o. split; [by apply list_elem_of_In|]. by apply bool_decide_eq_true_1 in Hf.
Qed.

End RestrictionExtensions.

Section GeneratorInvariant.

Import Generator.
Local Open Scope string_scope.
Context `{ConceptLen}.

Lemma getitem_insert `{Countable K} {V} (d : gmap K V) (k : K) (v : V) :
  getitem (<[k := v]> d) k = inr v.
Proof. unfold getitem. by rewrite lookup_insert_eq. Qed.

(** The memo tables of a fresh generator are empty. *)
Lemma init_log_inv concepts0 T0 Bottom0 max_size min_size first_id g :
  init concepts0 T0 Bottom0 max_size min_size first_id = inr g ->
  log_inv g.
Proof.
  unfold init. repeat case_match; intros [= <-].
  split; cbn; intros *; by rewrite lookup_empty.
Qed.

Lemma negation_log_inv (g g' : ConceptGenerator) (C : Concept) r :
  log_inv g -> negation g C = (r, g') -> log_inv g'.
Proof.
  intros [Hu Hi He Hv Hn]. unfold negation.
  destruct (log_of_negations g !! inl C) as [c|] eqn:Hlog.
  { by intros [= <- <-]. }
  destruct (String.eqb_spec (owl_name C) "Thing") as [Hname|Hname]; cbn [negb].
  - destruct (decide (form C = ObjectComplementOf)).
    + destruct (str C); [by intros [= <- <-]|].
      destruct (String.prefix _ _); by intros [= <- <-].
    + intros [= <- <-]. split; try done.
      cbn. intros C' c'. rewrite !lookup_insert_ne by done. apply Hn.
  - intros [= <- <-]. split; try done.
    cbn. intros C' c'. rewrite lookup_insert.
    case_decide as Heq.
    + intros [= <-]. by simplify_eq.
    + apply Hn.
Qed.

Lemma concepts_sorter_cases (A B : Concept) :
  concepts_sorter A B = (A, B) \/ concepts_sorter A B = (B, A).
Proof. unfold concepts_sorter. repeat case_match; auto. Qed.

Lemma union_log_inv (g g' : ConceptGenerator) (A0 B0 : Concept) r :
  log_inv g -> union g A0 B0 = (r, g') -> log_inv g'.
Proof.
  intros [Hu Hi He Hv Hn]. unfold union.
  destruct (concepts_sorter A0 B0) as [A B].
  destruct (String.eqb (str A) "Nothing"); [by intros [= <- <-]|].
  destruct (String.eqb (str B) "Nothing"); [by intros [= <- <-]|].
  destruct (log_of_unions g !! (A, B)) eqn:Hlog; [by intros [= <- <-]|].
  destruct (in_bounds g (instances A ∪ instances B)) eqn:Hb; cbn [negb];
    [|by intros [= <- <-]].
  intros [= <- <-]. split; try done.
  cbn. intros A' B' c'. rewrite lookup_insert. case_decide as Heq.
  - intros [= <-]. by simplify_eq.
  - apply Hu.
Qed.

Lemma intersection_log_inv (g g' : ConceptGenerator) (A0 B0 : Concept) r :
  log_inv g -> intersection g A0 B0 = (r, g') -> log_inv g'.
Proof.
  intros [Hu Hi He Hv Hn]. unfold intersection.
  destruct (concepts_sorter A0 B0) as [A B].
  destruct (log_of_intersections g !! (A, B)) eqn:Hlog;
    [by intros [= <- <-]|].
  destruct (String.eqb_spec (str A) "Nothing") as [HA|HA]; cbn [orb].
  { intros [= <- <-]. split; try done.
    cbn. intros A' B' c'. rewrite lookup_insert. case_decide as Heq.
    - intros [= <-]. simplify_eq. left. auto.
    - apply Hi. }
  destruct (String.eqb_spec (str B) "Nothing") as [HB|HB].
  { intros [= <- <-]. split; try done.
    cbn. intros A' B' c'. rewrite lookup_insert. case_decide as Heq.
    - intros [= <-]. simplify_eq. left. auto.
    - apply Hi. }
  destruct (in_bounds g (instances A ∩ instances B)) eqn:Hb; cbn [negb];
    [|by intros [= <- <-]].
  intros [= <- <-]. split; try done.
  cbn. intros A' B' c'. rewrite lookup_insert. case_decide as Heq.
  - intros [= <-]. simplify_eq. right. auto.
  - apply Hi.
Qed.

Lemma existential_restriction_log_inv (g g' : ConceptGenerator)
      (C : Concept) (R : Role) r :
  log_inv g -> existential_restriction g C R = (r, g') -> log_inv g'.
Proof.
  intros [Hu Hi He Hv Hn]. unfold existential_restriction.
  destruct (log_of_existential_restriction g !! (C, R)) eqn:Hlog;
    [by intros [= <- <-]|].
  destruct (in_bounds g _) eqn:Hb; cbn [negb]; [|by intros [= <- <-]].
  intros [= <- <-]. split; try done.
  cbn. intros C' R' c'. rewrite lookup_insert. case_decide as Heq.
  - intros [= <-]. by simplify_eq.
  - apply He.
Qed.

Lemma universal_restriction_log_inv (g g' : ConceptGenerator)
      (C : Concept) (R : Role) r :
  log_inv g -> universal_restriction g C R = (r, g') -> log_inv g'.
Proof.
  intros [Hu Hi He Hv Hn]. unfold universal_restriction.
  destruct (log_of_universal_restriction g !! (C, R)) eqn:Hlog;
    [by intros [= <- <-]|].
  destruct (in_bounds g _) eqn:Hb; cbn [negb]; [|by intros [= <- <-]].
  intros [= <- <-]. split; try done.
  cbn. intros C' R' c'. rewrite lookup_insert. case_decide as Heq.
  - intros [= <-]. by simplify_eq.
  - apply Hv.
Qed.

Lemma union_out_of_bounds (g : ConceptGenerator) (A B : Concept) :
  log_inv g -> str A <> "Nothing" -> str B <> "Nothing" ->
  in_bounds g (instances A ∪ instances B) = false ->
  union g A B = (inr (Bottom g), g).
Proof.
  intros Hinv HA HB Hout. unfold union.
  destruct (concepts_sorter_cases A B) as [-> | ->];
    [|rewrite (union_comm_L (instances A)) in Hout];
    (case_nothing; [done|]); (case_nothing; [done|]);
    (destruct (log_of_unions g !! _) as [c|] eqn:Hlog;
     [apply (inv_unions g Hinv) in Hlog as [Hin _]; congruence|]);
    cbn zeta; by rewrite Hout.
Qed.

Lemma intersection_out_of_bounds (g : ConceptGenerator) (A B : Concept) :
  log_inv g ->
  in_bounds g (instances A ∩ instances B) = false ->
  fst (intersection g A B) = inr (Bottom g)
  /\ concepts (snd (intersection g A B)) = concepts g
  /\ next_id (snd (intersection g A B)) = next_id g.
Proof.
  intros Hinv Hout. unfold intersection.
  destruct (concepts_sorter_cases A B) as [-> | ->];
    [|rewrite (intersection_comm_L (instances A)) in Hout];
    (destruct (log_of_intersections g !! _) as [c|] eqn:Hlog;
     [apply (inv_intersections g Hinv) in Hlog
        as [[_ ->]|(_ & _ & Hin & _)]; [done|congruence]|]);
    (destruct (String.eqb _ "Nothing" || String.eqb _ "Nothing")%bool;
     [cbn; by rewrite getitem_insert|]);
    cbn zeta; by rewrite Hout.
Qed.

Lemma existential_restriction_out_of_bounds (g : ConceptGenerator)
      (C : Concept) (R : Role) :
  log_inv g ->
  in_bounds g (get_instances_for_restrictions g true R C) = false ->
  existential_restriction g C R = (inr (Bottom g), g).
Proof.
  intros Hinv Hout. unfold existential_restriction.
  destruct (log_of_existential_restriction g !! _) as [c|] eqn:Hlog.
  - apply (inv_existential g Hinv) in Hlog as [Hin _]. congruence.
  - cbn zeta. by rewrite Hout.
Qed.

Lemma universal_restriction_out_of_bounds (g : ConceptGenerator)
      (C : Concept) (R : Role) :
  log_inv g ->
  in_bounds g (get_instances_for_restrictions g false R C) = false ->
  universal_restriction g C R = (inr (Bottom g), g).
Proof.
  intros Hinv Hout. unfold universal_restriction.
  destruct (log_of_universal_restriction g !! _) as [c|] eqn:Hlog.
  - apply (inv_universal g Hinv) in Hlog as [Hin _]. congruence.
  - cbn zeta. by rewrite Hout.
Qed.

(** C2, as the code has it.  On a generator whose memo tables it filled
    itself, [intersection], [existential_restriction] and
    [universal_restriction], and [union] when neither operand renders as
    ['Nothing'], return the canonical Bottom concept whenever the
    extension they compute lies outside
    [[min_size_of_concept, max_size_of_concept]]: no error, no new
    concept.  In particular, with bounds 2 and 5 a union of two operands
    not rendered as ['Nothing'] whose combined extension has 6 members
    returns Bottom. *)
Theorem out_of_bounds_returns_Bottom (g : ConceptGenerator) :
  log_inv g ->
  (forall A B, str A <> "Nothing" -> str B <> "Nothing" ->
               in_bounds g (instances A ∪ instances B) = false ->
               union g A B = (inr (Bottom g), g))
  /\ (forall A B, in_bounds g (instances A ∩ instances B) = false ->
                  fst (intersection g A B) = inr (Bottom g)
                  /\ concepts (snd (intersection g A B)) = concepts g
                  /\ next_id (snd (intersection g A B)) = next_id g)
  /\ (forall C R,
         in_bounds g (get_instances_for_restrictions g true R C) = false ->
         existential_restriction g C R = (inr (Bottom g), g))
  /\ (forall C R,
         in_bounds g (get_instances_for_restrictions g false R C) = false ->
         universal_restriction g C R = (inr (Bottom g), g))
  /\ (min_size_of_concept g = 2%Z -> max_size_of_concept g = 5%Z ->
      forall A B, str A <> "Nothing" -> str B <> "Nothing" ->
                  size (instances A ∪ instances B) = 6 ->
                  union g A B = (inr (Bottom g), g)).
Proof.
  intros Hinv. split; [|split; [|split; [|split]]].
  - intros A B. by apply union_out_of_bounds.
  - intros A B. by apply intersection_out_of_bounds.
  - intros C R. by apply existential_restriction_out_of_bounds.
  - intros C R. by apply universal_restriction_out_of_bounds.
  - intros Hmin Hmax A B HA HB Hsize.
    apply union_out_of_bounds; [done..|].
    unfold in_bounds. rewrite Hmin, Hmax, Hsize. reflexivity.
Qed.

End GeneratorInvariant.

(** The bounds 2 and 5 and a union of six members, [{1, 2, 3}] with
    [{4, 5, 6}]. *)
Lemma out_of_bounds_returns_Bottom_witness :
  Generator.union (H := Toy.ext_len) Toy.g25 Toy.A Toy.D
  = (inr Toy.Bot, Toy.g25).
Proof.
  assert (Hinv : Generator.log_inv Toy.g25).
  { by apply (init_log_inv ∅ Toy.Top Toy.Bot 5 2 10). }
  destruct (out_of_bounds_returns_Bottom (H := Toy.ext_len) Toy.g25 Hinv)
    as (_ & _ & _ & _ & Hsix).
  apply (Hsix eq_refl eq_refl Toy.A Toy.D); [discriminate|discriminate|].
  reflexivity.
Defined.

Section GeneratorOperations.

Import Generator.
Local Open Scope string_scope.
Context `{ConceptLen}.

(** *** negation *)

(** The negation sign is the two bytes C2 AC in front of the name. *)
Lemma neg_name_bytes (s : string) :
  "¬" ++ s = String (ascii_of_nat 194) (String (ascii_of_nat 172) s).
Proof. reflexivity. Qed.

Lemma neg_name_ne (s : string) : "¬" ++ s <> s.
Proof.
  rewrite neg_name_bytes. intros Heq.
  apply (f_equal String.length) in Heq. cbn in Heq. lia.
Qed.

Lemma neg_name_not_Thing (s : string) : "¬" ++ s <> "Thing".
Proof. rewrite neg_name_bytes. discriminate. Qed.

Lemma negation_cached (g : ConceptGenerator) (C c : Concept) :
  log_of_negations g !! inl C = Some c -> negation g C = (inr c, g).
Proof. intros Hlog. unfold negation. by rewrite Hlog. Qed.

(** Every concept not named ['Thing'] without a memo entry gets a newly
    allocated complement, whatever its form. *)
Lemma negation_fresh (g : ConceptGenerator) (C : Concept) :
  log_of_negations g !! inl C = None -> owl_name C <> "Thing" ->
  let c := new_concept (next_id g) ("¬" ++ owl_name C) ObjectComplementOf
                       (instances (T g) ∖ instances C) in
  negation g C
  = (inr c,
     register g c
              (set_log_of_negations (<[inl C := c]> (log_of_negations g)))).
Proof.
  intros Hlog Hname c. unfold negation. rewrite Hlog.
  destruct (String.eqb_spec (owl_name C) "Thing"); [done|].
  cbn [negb]. cbn. by rewrite getitem_insert.
Qed.

(** X19.  On a state the generator built, [negation(Top)] returns the
    canonical Bottom, for a Top that is named ['Thing'], is not tagged as
    a complement and does not share its identifier with Bottom (the first
    half of C3). *)
Lemma negation_Top (g : ConceptGenerator) :
  log_inv g -> owl_name (T g) = "Thing" ->
  form (T g) <> ObjectComplementOf ->
  full_iri (T g) <> full_iri (Bottom g) ->
  fst (negation g (T g)) = inr (Bottom g).
Proof.
  intros Hinv Hname Hform Hiri. unfold negation.
  destruct (log_of_negations g !! inl (T g)) as [c|] eqn:Hlog.
  { by apply (inv_negations g Hinv) in Hlog as [? _]. }
  rewrite Hname. cbn [String.eqb Ascii.eqb Bool.eqb negb].
  destruct (decide (form (T g) = ObjectComplementOf)); [done|].
  cbn. unfold getitem.
  rewrite lookup_insert_ne by congruence. by rewrite lookup_insert_eq.
Qed.

(** X15.  Two calls of [negation] on the same concept end the same way; they
    return the same object unless the concept is the malformed one that
    is named ['Thing'] and yet tagged as a complement. *)
Lemma negation_twice (g : ConceptGenerator) (C : Concept) :
  (owl_name C = "Thing" -> form C <> ObjectComplementOf) ->
  exists c g1 g2,
    negation g C = (inr c, g1) /\ negation g1 C = (inr c, g2).
Proof.
  intros Hwf.
  destruct (log_of_negations g !! inl C) as [c|] eqn:Hlog.
  { exists c, g, g. by rewrite !(negation_cached g C c). }
  destruct (String.eqb_spec (owl_name C) "Thing") as [Hname|Hname].
  - specialize (Hwf Hname).
    set (r := if decide (full_iri (Bottom g) = full_iri C)
              then C else Bottom g).
    set (l2 := <[inr (full_iri (Bottom g)) := C]>
                 (<[inr (full_iri C) := Bottom g]> (log_of_negations g))).
    assert (Hr : forall l : gmap (Concept + string) Concept,
               getitem (<[inr (full_iri (Bottom g)) := C]>
                          (<[inr (full_iri C) := Bottom g]> l))
                       (inr (full_iri C)) = inr r).
    { intros l. unfold getitem, r. rewrite lookup_insert.
      case_decide as Heq; [by simplify_eq; rewrite decide_True|].
      rewrite decide_False by congruence. by rewrite lookup_insert_eq. }
    exists r, (set_log_of_negations l2 g),
      (set_log_of_negations
         (<[inr (full_iri (Bottom g)) := C]>
            (<[inr (full_iri C) := Bottom g]> l2)) g).
    split.
    + unfold negation. rewrite Hlog, Hname.
      cbn [String.eqb Ascii.eqb Bool.eqb negb].
      destruct (decide (form C = ObjectComplementOf)); [done|].
      cbn. by rewrite Hr.
    + unfold negation. cbn [log_of_negations set_log_of_negations].
      unfold l2 at 1. rewrite !lookup_insert_ne by done.
      rewrite Hlog, Hname. cbn [String.eqb Ascii.eqb Bool.eqb negb].
      destruct (decide (form C = ObjectComplementOf)); [done|].
      cbn. by rewrite Hr.
  - eexists _, _, _. split.
    + by apply negation_fresh.
    + apply negation_cached. cbn. by rewrite lookup_insert_eq.
Qed.

(** C4 fails for every concept: the complement of a complement is built
    anew, one negation sign longer, and is a different object. *)
Lemma double_negation_builds_new (g : ConceptGenerator) (C : Concept) :
  owl_name C <> "Thing" ->
  log_of_negations g !! inl C = None ->
  log_of_negations g
    !! inl (new_concept (next_id g) ("¬" ++ owl_name C) ObjectComplementOf
                        (instances (T g) ∖ instances C)) = None ->
  exists c1 g1 c2 g2,
    negation g C = (inr c1, g1) /\ negation g1 c1 = (inr c2, g2)
    /\ owl_name c2 = "¬" ++ "¬" ++ owl_name C
    /\ cid c2 = S (next_id g)
    /\ c2 <> C.
Proof.
  intros Hname Hlog Hlog1.
  set (c1 := new_concept (next_id g) ("¬" ++ owl_name C) ObjectComplementOf
                         (instances (T g) ∖ instances C)) in *.
  eexists c1, _, _, _. split; [by apply negation_fresh|].
  split.
  - apply negation_fresh.
    + cbn. rewrite lookup_insert_ne; [done|].
      intros [= Heq]. apply (f_equal owl_name) in Heq. cbn in Heq.
      symmetry in Heq. by apply neg_name_ne in Heq.
    + cbn. apply neg_name_not_Thing.
  - cbn. split; [done|]. split; [done|].
    intros Heq. apply (f_equal owl_name) in Heq. cbn in Heq.
    rewrite !neg_name_bytes in Heq.
    apply (f_equal String.length) in Heq. cbn in Heq. lia.
Qed.


(** *** union and intersection *)

Lemma string_ltb_compare (s1 s2 : string) :
  String.ltb s1 s2 = true <-> String.compare s1 s2 = Lt.
Proof. unfold String.ltb. destruct (String.compare s1 s2); split; congruence. Qed.

(** The sorter is independent of the order of its arguments as soon as
    the two concepts differ in [len] or in [str] (or are one object). *)
Lemma concepts_sorter_sym (A B : Concept) :
  clen A <> clen B \/ str A <> str B \/ A = B ->
  concepts_sorter A B = concepts_sorter B A.
Proof.
  intros Hdiff. unfold concepts_sorter.
  destruct (Nat.ltb_spec (clen A) (clen B)) as [Hab|Hab];
    destruct (Nat.ltb_spec (clen B) (clen A)) as [Hba|Hba];
    try done; try lia.
  destruct Hdiff as [Hlen|[Hstr| ->]]; [lia| |by destruct (String.ltb _ _)].
  destruct (String.ltb (str B) (str A)) eqn:HBA;
    destruct (String.ltb (str A) (str B)) eqn:HAB; try done.
  - apply string_ltb_compare in HBA, HAB.
    rewrite String.compare_antisym, HAB in HBA. discriminate.
  - exfalso. apply Hstr. apply String.compare_eq_iff.
    destruct (String.compare (str A) (str B)) eqn:Hc; [done| |].
    + apply string_ltb_compare in Hc. congruence.
    + assert (String.compare (str B) (str A) = Lt) as Hc'
          by (by rewrite String.compare_antisym, Hc).
      apply string_ltb_compare in Hc'. congruence.
Qed.

(** Asking for the same union twice returns the same object. *)
Lemma union_twice (g : ConceptGenerator) (A B : Concept) :
  exists c g1 g2, union g A B = (inr c, g1) /\ union g1 A B = (inr c, g2).
Proof.
  unfold union. destruct (concepts_sorter A B) as [A' B'].
  destruct (String.eqb (str A') "Nothing"); [by eexists _, _, _|].
  destruct (String.eqb (str B') "Nothing"); [by eexists _, _, _|].
  destruct (log_of_unions g !! (A', B')) as [c|] eqn:Hlog.
  { exists c, g, g. by rewrite Hlog. }
  destruct (in_bounds g (instances A' ∪ instances B')) eqn:Hb; cbn [negb].
  - eexists _, _, _. split.
    + cbn. by rewrite getitem_insert.
    + cbn. by rewrite lookup_insert_eq.
  - exists (Bottom g), g, g. by rewrite Hlog, Hb.
Qed.

(** X16.  The sound part of C5: when the sorter canonicalizes the pair, both
    argument orders reach the same memo entry. *)
Lemma union_order_independent (g : ConceptGenerator) (A B : Concept) :
  clen A <> clen B \/ str A <> str B \/ A = B ->
  exists c g1 g2, union g A B = (inr c, g1) /\ union g1 B A = (inr c, g2).
Proof.
  intros Hdiff. destruct (union_twice g A B) as (c & g1 & g2 & H1 & H2).
  exists c, g1, g2. split; [done|].
  unfold union in *. by rewrite <- (concepts_sorter_sym A B Hdiff).
Qed.

(** X17.  The sound part of C6 for [union]: the shortcut compares string
    renders, so it returns the other operand as long as that operand does
    not itself render as ['Nothing']. *)
Lemma union_with_Bottom (g : ConceptGenerator) (C : Concept) :
  str (Bottom g) = "Nothing" ->
  (str C = "Nothing" -> C = Bottom g) ->
  union g C (Bottom g) = (inr C, g) /\ union g (Bottom g) C = (inr C, g).
Proof.
  intros Hbot HC. unfold union.
  split; [destruct (concepts_sorter_cases C (Bottom g)) as [-> | ->]
         |destruct (concepts_sorter_cases (Bottom g) C) as [-> | ->]];
    rewrite ?Hbot; cbn [String.eqb Ascii.eqb Bool.eqb];
    try done;
    (destruct (String.eqb_spec (str C) "Nothing") as [Heq|Hne];
     [by rewrite (HC Heq)|]); by rewrite ?Hbot.
Qed.

(** X18.  On every state the generator builds, the intersection with
    Bottom, in either argument order, returns Bottom (C6 for
    [intersection]). *)
Lemma intersection_with_Bottom (g : ConceptGenerator) (C : Concept) :
  log_inv g -> str (Bottom g) = "Nothing" ->
  fst (intersection g C (Bottom g)) = inr (Bottom g)
  /\ fst (intersection g (Bottom g) C) = inr (Bottom g).
Proof.
  intros Hinv Hbot. unfold intersection.
  split; [destruct (concepts_sorter_cases C (Bottom g)) as [-> | ->]
         |destruct (concepts_sorter_cases (Bottom g) C) as [-> | ->]];
    (destruct (log_of_intersections g !! _) as [c|] eqn:Hlog;
     [apply (inv_intersections g Hinv) in Hlog
        as [[_ ->]|(HA & HB & _)]; [done|congruence]|]);
    rewrite Hbot; cbn [String.eqb Ascii.eqb Bool.eqb orb];
    rewrite ?orb_true_r; cbn; by rewrite getitem_insert.
Qed.

Lemma string_ltb_irrefl (s : string) : String.ltb s s = false.
Proof.
  unfold String.ltb. destruct (String.compare s s) eqn:Hc; try done.
  pose proof (String.compare_antisym s s) as Ha. rewrite Hc in Ha.
  discriminate.
Qed.

(** Where C6 fails for [union]: an operand other than Bottom that renders
    as ['Nothing'] and is not longer than Bottom is sorted first, and the
    shortcut then hands back the second of the pair, Bottom. *)
Lemma union_namesake_returns_Bottom (g : ConceptGenerator) (C : Concept) :
  str (Bottom g) = "Nothing" -> str C = "Nothing" ->
  clen C <= clen (Bottom g) ->
  union g C (Bottom g) = (inr (Bottom g), g).
Proof.
  intros Hbot HC Hlen. unfold union, concepts_sorter.
  destruct (Nat.ltb_spec (clen C) (clen (Bottom g))) as [Hlt|Hge].
  - by rewrite HC.
  - destruct (Nat.ltb_spec (clen (Bottom g)) (clen C)); [lia|].
    rewrite Hbot, HC.
    rewrite string_ltb_irrefl. by rewrite HC.
Qed.

(** Where C5 fails for [union]: two different concepts that tie on [len]
    and on [str] are left in argument order, so the two calls use the
    keys [(A, B)] and [(B, A)] and each allocates a concept of its own. *)
Lemma union_tie_allocates_twice (g : ConceptGenerator) (A B : Concept) :
  A <> B -> clen A = clen B -> str A = str B -> str A <> "Nothing" ->
  in_bounds g (instances A ∪ instances B) = true ->
  log_of_unions g !! (A, B) = None ->
  log_of_unions g !! (B, A) = None ->
  exists c1 g1 c2 g2,
    union g A B = (inr c1, g1) /\ union g1 B A = (inr c2, g2)
    /\ cid c1 = next_id g /\ cid c2 = S (next_id g) /\ c1 <> c2.
Proof.
  intros Hne Hlen Hstr Hnot Hb HAB HBA.
  assert (HsAB : concepts_sorter A B = (A, B)).
  { unfold concepts_sorter.
    by rewrite Hlen, Nat.ltb_irrefl, Hstr, string_ltb_irrefl. }
  assert (HsBA : concepts_sorter B A = (B, A)).
  { unfold concepts_sorter.
    by rewrite Hlen, Nat.ltb_irrefl, Hstr, string_ltb_irrefl. }
  assert (HnotB : String.eqb (str B) "Nothing" = false).
  { apply String.eqb_neq. by rewrite <- Hstr. }
  assert (HnotA : String.eqb (str A) "Nothing" = false).
  { by apply String.eqb_neq. }
  eexists _, _, _, _. split; [|split].
  - unfold union. rewrite HsAB, HnotA, HnotB, HAB, Hb. cbn.
    by rewrite getitem_insert.
  - unfold union. rewrite HsBA, HnotA, HnotB. cbn.
    rewrite lookup_insert_ne by congruence. rewrite HBA.
    rewrite (union_comm_L (instances B)).
    unfold in_bounds in Hb |- *. cbn. rewrite Hb. cbn.
    by rewrite getitem_insert.
  - cbn. split; [done|]. split; [done|].
    intros Heq. apply (f_equal cid) in Heq. cbn in Heq. lia.
Qed.

(** *** restrictions *)

(** Whatever [universal_restriction] returns is Bottom or carries the
    extension of [get_instances_for_restrictions]. *)
Lemma universal_restriction_instances (g g' : ConceptGenerator)
      (C : Concept) (R : Role) (c : Concept) :
  log_inv g -> universal_restriction g C R = (inr c, g') ->
  c = Bottom g
  \/ instances c = get_instances_for_restrictions g false R C.
Proof.
  intros Hinv. unfold universal_restriction.
  destruct (log_of_universal_restriction g !! (C, R)) as [c'|] eqn:Hlog.
  { intros [= <- <-]. right. by apply (inv_universal g Hinv) in Hlog as [_ ?]. }
  destruct (in_bounds g _); cbn [negb].
  - cbn. rewrite getitem_insert. intros [= <- <-]. by right.
  - intros [= <- <-]. by left.
Qed.

(** The sibling operation does compute the textbook extension. *)
Lemma existential_restriction_instances (g g' : ConceptGenerator)
      (C : Concept) (R : Role) (c : Concept) :
  log_inv g -> existential_restriction g C R = (inr c, g') ->
  c = Bottom g
  \/ instances c = existential_extension (get_relations R) (instances C).
Proof.
  intros Hinv. unfold existential_restriction.
  rewrite <- (existential_instances_textbook g).
  destruct (log_of_existential_restriction g !! (C, R)) as [c'|] eqn:Hlog.
  { intros [= <- <-]. right.
    by apply (inv_existential g Hinv) in Hlog as [_ ?]. }
  destruct (in_bounds g _); cbn [negb].
  - cbn. rewrite getitem_insert. intros [= <- <-]. by right.
  - intros [= <- <-]. by left.
Qed.

End GeneratorOperations.

(** ** The generator on concrete inputs *)

Section GeneratorRuns.

Import Generator Toy.
Local Open Scope string_scope.
Local Existing Instance ext_len.

(** C1.  Universe [{1, 2}], one assertion [r(1, 2)], filler [One] with
    extension [{1}], bounds 1 and 5.  Individual 1 has the successor 2
    outside the filler, individual 2 has no successor at all, so the
    extension of [∀r.One] is [{2}].  [universal_restriction] returns a
    concept whose extension is [{1}]: it removes the object 2 of the
    offending pair instead of its subject 1. *)
Theorem universal_restriction_removes_objects :
  fst (universal_restriction g2 One r)
  = inr (new_concept 10 "(∀r.One)" ObjectAllValuesFrom {[1]})
  /\ in_bounds g2 {[1]} = true
  /\ universal_extension (instances (T g2)) (get_relations r) (instances One)
     = {[2]}
  /\ ({[1]} : gset nat) <> {[2]}.
Proof.
  split; [reflexivity|]. split; [reflexivity|]. split; [reflexivity|].
  intros Heq.
  assert (Hin : 1 ∈ ({[2]} : gset nat)) by (rewrite <- Heq; set_solver).
  set_solver.
Qed.

(** C3.  [negation(Top)] returns Bottom, but [negation(Bottom)], asked
    of a fresh generator or right after [negation(Top)], returns a newly
    built concept [¬Nothing], not Top: the entry that [negation(Top)]
    leaves for Bottom is stored under Bottom's identifier string, while
    the lookup uses the concept object. *)
Theorem negation_Bottom_is_not_Top :
  fst (negation g6 Top) = inr Bot
  /\ fst (negation g6 Bot)
     = inr (new_concept 10 "¬Nothing" ObjectComplementOf {[1; 2; 3; 4; 5; 6]})
  /\ fst (negation (snd (negation g6 Top)) Bot)
     = inr (new_concept 10 "¬Nothing" ObjectComplementOf {[1; 2; 3; 4; 5; 6]})
  /\ log_of_negations (snd (negation g6 Top)) !! inr (full_iri Bot) = Some Top
  /\ new_concept 10 "¬Nothing" ObjectComplementOf {[1; 2; 3; 4; 5; 6]} <> Top.
Proof.
  split; [reflexivity|]. split; [reflexivity|]. split; [reflexivity|].
  split; [reflexivity|]. discriminate.
Qed.

(** C4.  For the atomic concept [A] (extension [{1, 2, 3}], within the
    bounds 1 and 6), [negation(negation(A))] returns a newly built
    concept [¬¬A], not [A]. *)
Theorem double_negation_is_not_eliminated :
  exists notA g1,
    negation g6 A = (inr notA, g1)
    /\ form notA = ObjectComplementOf
    /\ fst (negation g1 notA)
       = inr (new_concept 11 "¬¬A" ObjectComplementOf {[1; 2; 3]})
    /\ new_concept 11 "¬¬A" ObjectComplementOf {[1; 2; 3]} <> A.
Proof.
  eexists _, _. split; [reflexivity|]. split; [reflexivity|].
  split; [reflexivity|]. discriminate.
Qed.

(** C5.  [Person1] and [Person2] are two concepts with the same string
    render and the same [len].  [union(Person1, Person2)] and then
    [union(Person2, Person1)] are stored under two different keys and
    return two different objects. *)
Theorem union_of_tied_concepts_is_not_shared :
  exists g1,
    union g6 Person1 Person2
    = (inr (new_concept 10 "(Person ⊔ Person)" ObjectUnionOf {[1; 2; 3]}), g1)
    /\ fst (union g1 Person2 Person1)
       = inr (new_concept 11 "(Person ⊔ Person)" ObjectUnionOf {[1; 2; 3]})
    /\ new_concept 10 "(Person ⊔ Person)" ObjectUnionOf {[1; 2; 3]}
       <> new_concept 11 "(Person ⊔ Person)" ObjectUnionOf {[1; 2; 3]}.
Proof.
  eexists. split; [reflexivity|]. split; [reflexivity|]. discriminate.
Qed.

(** C6.  [Nothing2] is a concept other than Bottom that renders as
    ['Nothing'].  [union(Nothing2, Bottom)] returns Bottom, not
    [Nothing2]; the intersection with Bottom is Bottom. *)
Theorem union_with_Bottom_of_a_Nothing_namesake :
  union g6 Nothing2 Bot = (inr Bot, g6)
  /\ Bot <> Nothing2
  /\ fst (intersection g6 Nothing2 Bot) = inr Bot.
Proof.
  split; [reflexivity|]. split; [discriminate|reflexivity].
Qed.

(** C2 as the specification words it fails for [union]: with the bounds
    2 and 5, [union(Bottom, Top)] has a combined extension of six
    members, outside the bounds, and returns Top.  Bottom renders as
    ['Nothing'], so the shortcut at the head of [union] returns the other
    operand before any extension is computed or measured. *)
Lemma union_of_Bottom_and_Top_is_not_collapsed :
  min_size_of_concept g25 = 2%Z
  /\ max_size_of_concept g25 = 5%Z
  /\ size (instances Bot ∪ instances Top) = 6
  /\ in_bounds g25 (instances Bot ∪ instances Top) = false
  /\ union g25 Bot Top = (inr Top, g25)
  /\ Top <> Bottom g25.
Proof.
  split; [reflexivity|]. split; [reflexivity|]. split; [reflexivity|].
  split; [reflexivity|]. split; [reflexivity|]. discriminate.
Qed.

End GeneratorRuns.

(** ** Further properties of the size-budget decomposition *)

Section UtilMore.

Import Util.
Local Open Scope Z_scope.

Lemma non_increasing_head_bound (x : Z) (rest : list Z) :
  non_increasing (x :: rest) -> Forall (fun y => y <= x) rest.
Proof.
  revert x. induction rest as [|y rest IH]; intros x Hni; [constructor|].
  destruct Hni as [Hyx Hrest]. constructor; [done|].
  eapply Forall_impl; [exact (IH y Hrest)|]. cbn. intros; lia.
Qed.

Lemma non_increasing_tail (x : Z) (rest : list Z) :
  non_increasing (x :: rest) -> non_increasing rest.
Proof. by intros [_ ?]. Qed.

Lemma sum_list_ge_length (l : list Z) :
  Forall (fun y => 1 <= y) l -> Z.of_nat (length l) <= sum_list l.
Proof.
  induction 1 as [|y l Hy _ IH]; cbn [sum_list fold_right length] in *;
    [lia|]. fold (sum_list l). lia.
Qed.

(** In a list of positive parts every part leaves room for the others. *)
Lemma part_le_budget (l : list Z) :
  Forall (fun y => 1 <= y) l ->
  Forall (fun y => y + (Z.of_nat (length l) - 1) <= sum_list l) l.
Proof.
  induction 1 as [|y l Hy Hl IH]; [constructor|].
  cbn [sum_list fold_right length]. fold (sum_list l).
  pose proof (sum_list_ge_length l Hl).
  constructor; [lia|].
  eapply Forall_impl; [exact IH|]. cbn. intros; lia.
Qed.

(** One run of the loop, in full: it only appends, what it appends has no
    repetition, and it is exactly the lists [bisher ++ tail] for the
    non-empty valid decompositions [tail] of [number] capped by [i]. *)
Lemma decompose_loop_exact (fuel : nat) :
  forall number i bisher combosTmp combos,
    decompose_loop fuel number i bisher combosTmp = Some combos ->
    exists new,
      combos = combosTmp ++ new
      /\ NoDup new
      /\ forall c, In c new <->
                   exists tail, c = bisher ++ tail /\ tail <> []
                                /\ combo_ok number i tail.
Proof.
  induction fuel as [|fuel IH]; intros number i bisher combosTmp combos.
  - discriminate.
  - cbn [decompose_loop].
    destruct (Z.leb_spec 1 i) as [Hi|Hi].
    2:{ intros [= <-]. exists []. split; [by rewrite app_nil_r|].
        split; [constructor|]. intros c. split; [done|].
        intros (tail & _ & Hne & _ & Hb & _).
        destruct tail as [|x tail]; [done|]. apply Forall_cons in Hb as [Hb _]. lia. }
    assert (Hi0 : (i =? 0) = false) by lia. rewrite Hi0.
    (* the lists headed by a part below [i] are those of the next rounds *)
    assert (Hlater : forall tail,
               (tail <> [] /\ combo_ok number i tail
                /\ (forall x rest, tail = x :: rest -> x <> i))
               <-> (tail <> [] /\ combo_ok number (i - 1) tail)).
    { intros tail. split.
      - intros (Hne & (Hni & Hb & Hs) & Hhead). split; [done|].
        split; [done|split; [|done]].
        destruct tail as [|x rest]; [done|].
        apply Forall_cons in Hb as [Hx Hrest].
        specialize (Hhead x rest eq_refl).
        constructor; [lia|].
        pose proof (non_increasing_head_bound x rest Hni) as Hle.
        rewrite Forall_forall in Hrest, Hle. apply Forall_forall.
        intros y Hy. specialize (Hrest y Hy). specialize (Hle y Hy).
        cbn in *. lia.
      - intros (Hne & Hok). split; [done|].
        split; [eapply combo_ok_cap; [|exact Hok]; lia|].
        intros x rest ->. destruct Hok as (_ & Hb & _).
        apply Forall_cons in Hb as [Hb _]. lia. }
    destruct (Z.ltb_spec 1 (number - i)) as [Hrec|Hrec].
    + assert (Hne1 : (number - i =? 1) = false) by lia.
      rewrite Hne1. cbn [negb].
      destruct (decompose_loop fuel (number - i - 1) _ _ combosTmp)
        as [c1|] eqn:Hc1; [|discriminate].
      intros Hrest.
      apply IH in Hc1 as (new1 & -> & Hnd1 & Hin1).
      apply IH in Hrest as (new2 & -> & Hnd2 & Hin2).
      exists (new1 ++ new2). split; [by rewrite <- app_assoc|].
      split.
      * apply NoDup_app. split; [done|]. split; [|done].
        intros c Hc1 Hc2.
        apply list_elem_of_In, Hin1 in Hc1 as (t1 & -> & _ & _).
        apply list_elem_of_In, Hin2 in Hc2 as (t2 & Heq & _ & (_ & Hb & _)).
        rewrite <- app_assoc in Heq. apply app_inv_head in Heq.
        cbn in Heq. subst t2. apply Forall_cons in Hb as [Hb _]. lia.
      * intros c. rewrite in_app_iff, Hin1, Hin2. split.
        -- intros [(t1 & -> & Hne & Hok)|(t2 & -> & Hne & Hok)].
           ++ exists (i :: t1). split; [by rewrite <- app_assoc|].
              split; [done|]. by apply combo_ok_cons.
           ++ exists t2. split; [done|]. split; [done|].
              eapply combo_ok_cap; [|exact Hok]. lia.
        -- intros (tail & -> & Hne & Hok).
           destruct tail as [|x rest]; [done|].
           destruct (decide (x = i)) as [->|Hx].
           ++ left. exists rest. split; [by rewrite <- app_assoc|].
              destruct Hok as (Hni & Hb & Hs).
              apply Forall_cons in Hb as [_ Hrestb].
              cbn [sum_list fold_right length] in Hs. fold (sum_list rest) in Hs.
              assert (Hrne : rest <> []).
              { intros ->. cbn in Hs. lia. }
              split; [done|]. split; [by eapply non_increasing_tail|].
              split; [|lia].
              assert (Hpos : Forall (fun y => 1 <= y) rest).
              { eapply Forall_impl; [exact Hrestb|]. cbn. intros; lia. }
              pose proof (part_le_budget rest Hpos) as Hroom.
              rewrite Forall_forall in Hrestb, Hroom. apply Forall_forall.
              intros y Hy. specialize (Hrestb y Hy). specialize (Hroom y Hy).
              cbn in *.
              assert (1 <= Z.of_nat (length rest)).
              { destruct rest; [done|]. cbn [length]. lia. }
              lia.
           ++ right. exists (x :: rest). split; [done|].
              apply Hlater. split; [done|]. split; [done|].
              intros x' rest' [= <- <-]. done.
    + destruct (Z.eqb_spec (number - i) 0) as [Hz|Hz].
      * assert (Hne1 : (number - i =? 1) = false) by lia.
        rewrite Hne1. cbn [negb]. intros Hrest.
        apply IH in Hrest as (new2 & -> & Hnd2 & Hin2).
        exists ([bisher ++ [i]] ++ new2). split; [by rewrite <- app_assoc|].
        split.
        -- cbn. apply NoDup_cons. split; [|done].
           intros Hc. apply list_elem_of_In, Hin2 in Hc
             as (t2 & Heq & _ & (_ & Hb & _)).
           apply app_inv_head in Heq. subst t2. apply Forall_cons in Hb as [Hb _]. lia.
        -- intros c. cbn [app In]. rewrite Hin2. split.
           ++ intros [<-|(t2 & -> & Hne & Hok)].
              ** exists [i]. split; [done|]. split; [done|].
                 replace number with i by lia. apply combo_ok_single. lia.
              ** exists t2. split; [done|]. split; [done|].
                 eapply combo_ok_cap; [|exact Hok]. lia.
           ++ intros (tail & -> & Hne & Hok).
              destruct tail as [|x rest]; [done|].
              destruct (decide (x = i)) as [->|Hx].
              ** left. destruct Hok as (Hni & Hb & Hs).
                 apply Forall_cons in Hb as [_ Hrestb].
                 cbn [sum_list fold_right length] in Hs.
                 fold (sum_list rest) in Hs.
                 destruct rest as [|y rest]; [done|].
                 apply Forall_cons in Hrestb as [Hy Hrestb].
                 assert (Hpos : Forall (fun y => 1 <= y) rest).
                 { eapply Forall_impl; [exact Hrestb|]. cbn. intros; lia. }
                 pose proof (sum_list_ge_length rest Hpos).
                 cbn [sum_list fold_right length] in Hs.
                 fold (sum_list rest) in Hs. lia.
              ** right. exists (x :: rest). split; [done|].
                 apply Hlater. split; [done|]. split; [done|].
                 intros x' rest' [= <- <-]. done.
      * intros Hrest. apply IH in Hrest as (new2 & -> & Hnd2 & Hin2).
        exists new2. split; [done|]. split; [done|].
        intros c. rewrite Hin2. split.
        -- intros (t2 & -> & Hne & Hok). exists t2. split; [done|].
           split; [done|]. eapply combo_ok_cap; [|exact Hok]. lia.
        -- intros (tail & -> & Hne & Hok).
           destruct tail as [|x rest]; [done|].
           destruct (decide (x = i)) as [->|Hx].
           ++ exfalso. destruct Hok as (Hni & Hb & Hs).
              apply Forall_cons in Hb as [_ Hrestb].
              cbn [sum_list fold_right length] in Hs.
              fold (sum_list rest) in Hs.
              assert (Hpos : Forall (fun y => 1 <= y) rest).
              { eapply Forall_impl; [exact Hrestb|]. cbn. intros; lia. }
              pose proof (sum_list_ge_length rest Hpos).
              destruct rest as [|y rest]; cbn [length sum_list fold_right] in *; lia.
           ++ exists (x :: rest). split; [done|].
              apply Hlater. split; [done|]. split; [done|].
              intros x' rest' [= <- <-]. done.
Qed.

(** X1.  For a positive budget [getCombos length max_length] returns exactly
    the non-increasing lists of positive integers, each at most
    [min(length, max_length)], with [sum + (len - 1) = length]: every such
    list is in the result and nothing else is. *)
Theorem getCombos_exact (fuel : nat) (length max_length : Z)
        (combos : list (list Z)) (combo : list Z) :
  0 < length ->
  getCombos fuel length max_length = Some combos ->
  In combo combos <-> combo_ok length (Z.min length max_length) combo.
Proof.
  intros Hpos Hrun. unfold getCombos, decompose in Hrun.
  apply decompose_loop_exact in Hrun as (new & -> & _ & Hin).
  cbn [app]. rewrite Hin. split.
  - by intros (tail & -> & _ & Hok).
  - intros Hok. exists combo. split; [done|]. split; [|done].
    intros ->. destruct Hok as (_ & _ & Hs). cbn in Hs. lia.
Qed.

Lemma getCombos_exact_witness :
  In [2; 2] [[5]; [3; 1]; [2; 2]; [1; 1; 1]]
  <-> combo_ok 5 (Z.min 5 5) [2; 2].
Proof.
  apply (getCombos_exact 20 5 5 [[5]; [3; 1]; [2; 2]; [1; 1; 1]] [2; 2]);
    [lia|reflexivity].
Defined.

(** X2.  [getCombos] never returns the same combination twice. *)
Theorem getCombos_NoDup (fuel : nat) (length max_length : Z)
        (combos : list (list Z)) :
  getCombos fuel length max_length = Some combos -> NoDup combos.
Proof.
  intros Hrun. unfold getCombos, decompose in Hrun.
  by apply decompose_loop_exact in Hrun as (new & -> & Hnd & _).
Qed.

Lemma getCombos_NoDup_witness :
  NoDup [[5]; [3; 1]; [2; 2]; [1; 1; 1]].
Proof. apply (getCombos_NoDup 20 5 5). reflexivity. Defined.

(** X3.  [decompose] only appends to [combosTmp]: the entries already there
    stay in place, every list added extends [bisher], and nothing at all
    is added when [min(number, upperlimit)] is below 1. *)
Theorem decompose_appends (fuel : nat) (number upperlimit : Z)
        (bisher : list Z) (combosTmp combos : list (list Z)) :
  decompose fuel number upperlimit bisher combosTmp = Some combos ->
  exists new,
    combos = combosTmp ++ new
    /\ Forall (fun c => exists tail, c = bisher ++ tail) new
    /\ (Z.min number upperlimit < 1 -> new = []).
Proof.
  intros Hrun. unfold decompose in Hrun.
  apply decompose_loop_exact in Hrun as (new & -> & _ & Hin).
  exists new. split; [done|]. split.
  - apply Forall_forall. intros c Hc.
    apply list_elem_of_In, Hin in Hc as (tail & -> & _). by exists tail.
  - intros Hsmall. destruct new as [|c new]; [done|]. exfalso.
    destruct (proj1 (Hin c) (or_introl eq_refl))
      as (tail & _ & Hne & (_ & Hb & _)).
    destruct tail as [|x tail]; [done|].
    apply Forall_cons in Hb as [Hx _]. lia.
Qed.

Lemma decompose_appends_witness :
  exists new,
    [[9]; [3; 1]; [2; 2]; [1; 1; 1]] = [[9]] ++ new
    /\ Forall (fun c => exists tail, c = [] ++ tail) new
    /\ (Z.min 5 3 < 1 -> new = []).
Proof. apply (decompose_appends 20 5 3 [] [[9]]). reflexivity. Defined.

End UtilMore.

(** ** Further properties of the F1 score *)

Section EvaluationMore.

Import Evaluation.
Local Open Scope Q_scope.

Lemma f1_of_counts_zero (fp fn : Z) : f1_of_counts 0 fp fn == 0.
Proof.
  unfold f1_of_counts, true_div. rewrite !Z.add_0_l.
  destruct (fn =? 0)%Z; [reflexivity|].
  destruct (fp =? 0)%Z; [reflexivity|].
  assert (Hz : Qeq_bool (inject_Z 0 / inject_Z fp) 0 = true).
  { apply Qeq_bool_iff. unfold Qdiv. by rewrite Qmult_0_l. }
  by rewrite Hz.
Qed.

Lemma f1_of_counts_pos (tp fp fn : Z) :
  (0 < tp)%Z -> (0 <= fp)%Z -> (0 <= fn)%Z ->
  f1_of_counts tp fp fn == (2 * tp) # Z.to_pos (2 * tp + fp + fn).
Proof.
  intros Htp Hfp Hfn. unfold f1_of_counts, true_div.
  assert (H1 : (tp + fn =? 0)%Z = false) by lia.
  assert (H2 : (tp + fp =? 0)%Z = false) by lia.
  rewrite H1, H2.
  assert (Ha : 0 < inject_Z tp) by (apply inject_Z_pos; lia).
  assert (Hb : 0 <= inject_Z fp) by by apply inject_Z_nonneg.
  assert (Hc : 0 <= inject_Z fn) by by apply inject_Z_nonneg.
  assert (Hp : Qeq_bool (inject_Z tp / inject_Z (tp + fp)) 0 = false).
  { apply not_true_iff_false. rewrite Qeq_bool_iff.
    apply Qpos_neq_0. apply Qlt_shift_div_l.
    - apply inject_Z_pos. lia.
    - by rewrite Qmult_0_l. }
  assert (Hr : Qeq_bool (inject_Z tp / inject_Z (tp + fn)) 0 = false).
  { apply not_true_iff_false. rewrite Qeq_bool_iff.
    apply Qpos_neq_0. apply Qlt_shift_div_l.
    - apply inject_Z_pos. lia.
    - by rewrite Qmult_0_l. }
  rewrite Hp, Hr. cbn [orb]. rewrite !inject_Z_plus.
  rewrite (harmonic_mean_closed_form _ _ _ Ha Hb Hc).
  rewrite (Qmake_Qdiv (2 * tp)). rewrite Z2Pos.id by lia.
  rewrite !inject_Z_plus, inject_Z_mult.
  assert (Hden : ~ inject_Z tp + (1 # 2) * (inject_Z fp + inject_Z fn) == 0).
  { apply Qpos_neq_0.
    apply Qlt_le_trans with (inject_Z tp + 0); [by rewrite Qplus_0_r|].
    apply Qplus_le_r. apply Qmult_le_0_compat; [done|].
    replace 0 with (0 + 0) by reflexivity. by apply Qplus_le_compat. }
  assert (Hden2 : ~ inject_Z 2 * inject_Z tp + inject_Z fp + inject_Z fn == 0).
  { apply Qpos_neq_0.
    apply Qlt_le_trans with (inject_Z 2 * inject_Z tp + 0 + 0).
    - rewrite !Qplus_0_r. by apply Qmult_lt_0_compat.
    - apply Qplus_le_compat; [by apply Qplus_le_r|done]. }
  field. by split.
Qed.

Context `{Countable Ind}.

Lemma compute_f1_score_counts (individuals pos neg : gset Ind) :
  compute_f1_score individuals pos neg
  = f1_of_counts (true_pos individuals pos) (false_pos individuals neg)
                 (false_neg individuals pos).
Proof. reflexivity. Qed.

Lemma gset_size_zero (X : gset Ind) : size X = 0%nat <-> X = ∅.
Proof. rewrite size_empty_iff. apply leibniz_equiv_iff. Qed.

Lemma true_pos_zero (individuals pos : gset Ind) :
  true_pos individuals pos = 0%Z <-> pos ∩ individuals = ∅.
Proof.
  unfold true_pos. rewrite <- gset_size_zero. lia.
Qed.

Lemma false_pos_zero (individuals neg : gset Ind) :
  false_pos individuals neg = 0%Z <-> neg ∩ individuals = ∅.
Proof.
  unfold false_pos. rewrite <- gset_size_zero. lia.
Qed.

Lemma false_neg_zero (individuals pos : gset Ind) :
  false_neg individuals pos = 0%Z <-> pos ⊆ individuals.
Proof.
  unfold false_neg. split.
  - intros Hz. assert (Hs : size (pos ∖ individuals) = 0%nat) by lia.
    apply gset_size_zero in Hs. intros x Hx.
    destruct (decide (x ∈ individuals)); [done|]. set_solver.
  - intros Hsub. assert (pos ∖ individuals = ∅) as -> by set_solver.
    by rewrite size_empty.
Qed.

(** X4.  The score lies between 0 and 1. *)
Theorem compute_f1_score_range (individuals pos neg : gset Ind) :
  0 <= compute_f1_score individuals pos neg
  /\ compute_f1_score individuals pos neg <= 1.
Proof.
  rewrite compute_f1_score_counts.
  set (tp := true_pos individuals pos).
  set (fp := false_pos individuals neg).
  set (fn := false_neg individuals pos).
  assert (Htp : (0 <= tp)%Z) by (subst tp; unfold true_pos; lia).
  assert (Hfp : (0 <= fp)%Z) by (subst fp; unfold false_pos; lia).
  assert (Hfn : (0 <= fn)%Z) by (subst fn; unfold false_neg; lia).
  clearbody tp fp fn.
  destruct (Z.eq_dec tp 0%Z) as [->|Hne].
  - rewrite f1_of_counts_zero. split; [apply Qle_refl|done].
  - rewrite f1_of_counts_pos by lia. unfold Qle. cbn [Qnum Qden].
    rewrite Z2Pos.id by lia. lia.
Qed.

(** X5.  The score is 1 exactly when there is a positive example, every
    positive example is among the individuals and no negative one is. *)
Theorem compute_f1_score_one (individuals pos neg : gset Ind) :
  compute_f1_score individuals pos neg == 1
  <-> pos <> ∅ /\ pos ⊆ individuals /\ neg ∩ individuals = ∅.
Proof.
  rewrite compute_f1_score_counts.
  rewrite <- false_neg_zero, <- false_pos_zero.
  assert (Hpos : pos <> ∅ /\ false_neg individuals pos = 0%Z
                 <-> (0 < true_pos individuals pos)%Z
                     /\ false_neg individuals pos = 0%Z).
  { rewrite false_neg_zero. unfold true_pos. split.
    - intros [Hne Hsub]. split; [|done].
      assert (pos ∩ individuals = pos) as -> by set_solver.
      assert (size pos <> 0%nat) by by rewrite gset_size_zero. lia.
    - intros [Hlt Hsub]. split; [|done]. intros ->.
      rewrite intersection_empty_l_L, size_empty in Hlt. lia. }
  set (tp := true_pos individuals pos) in *.
  set (fp := false_pos individuals neg).
  set (fn := false_neg individuals pos) in *.
  assert (Htp : (0 <= tp)%Z) by (subst tp; unfold true_pos; lia).
  assert (Hfp : (0 <= fp)%Z) by (subst fp; unfold false_pos; lia).
  assert (Hfn : (0 <= fn)%Z) by (subst fn; unfold false_neg; lia).
  clearbody tp fp fn.
  transitivity ((0 < tp)%Z /\ fn = 0%Z /\ fp = 0%Z); [|tauto].
  destruct (Z.eq_dec tp 0%Z) as [->|Hne].
  - rewrite f1_of_counts_zero. split; [discriminate|lia].
  - rewrite f1_of_counts_pos by lia. unfold Qeq. cbn [Qnum Qden].
    rewrite Z2Pos.id by lia. lia.
Qed.

(** X6.  The score is 0 exactly when no positive example is among the
    individuals. *)
Theorem compute_f1_score_zero (individuals pos neg : gset Ind) :
  compute_f1_score individuals pos neg == 0
  <-> pos ∩ individuals = ∅.
Proof.
  rewrite compute_f1_score_counts, <- true_pos_zero.
  set (tp := true_pos individuals pos).
  set (fp := false_pos individuals neg).
  set (fn := false_neg individuals pos).
  assert (Htp : (0 <= tp)%Z) by (subst tp; unfold true_pos; lia).
  assert (Hfp : (0 <= fp)%Z) by (subst fp; unfold false_pos; lia).
  assert (Hfn : (0 <= fn)%Z) by (subst fn; unfold false_neg; lia).
  clearbody tp fp fn.
  destruct (Z.eq_dec tp 0%Z) as [->|Hne].
  - by rewrite f1_of_counts_zero.
  - rewrite f1_of_counts_pos by lia. unfold Qeq. cbn [Qnum Qden]. lia.
Qed.

(** X7.  Individuals that are neither positive nor negative examples do
    not influence the score: true negatives and unlabelled individuals
    are not counted. *)
Theorem compute_f1_score_ignores_unlabelled
        (individuals others pos neg : gset Ind) :
  others ∩ (pos ∪ neg) = ∅ ->
  compute_f1_score (individuals ∪ others) pos neg
  = compute_f1_score individuals pos neg.
Proof.
  intros Hdisj. unfold compute_f1_score.
  assert (pos ∩ (individuals ∪ others) = pos ∩ individuals) as ->
      by set_solver.
  assert (neg ∩ (individuals ∪ others) = neg ∩ individuals) as ->
      by set_solver.
  assert (pos ∖ (individuals ∪ others) = pos ∖ individuals) as ->
      by set_solver.
  reflexivity.
Qed.

End EvaluationMore.

Lemma compute_f1_score_ignores_unlabelled_witness :
  Evaluation.compute_f1_score (({[1; 3]} : gset nat) ∪ {[7; 8]}) {[1; 2]} {[3; 4]}
  = Evaluation.compute_f1_score ({[1; 3]} : gset nat) {[1; 2]} {[3; 4]}.
Proof.
  apply compute_f1_score_ignores_unlabelled.
  apply set_eq. intros x. set_solver.
Defined.

(** ** Further properties of the concept generator *)

Section GeneratorMore.

Import Generator.
Local Open Scope string_scope.
Context `{ConceptLen}.

(** X8.  The invariant of the memo tables is kept by every operation:
    whatever [negation], [union], [intersection], [existential_restriction]
    or [universal_restriction] is called on, the state it leaves satisfies
    [log_inv] again. *)
Theorem operations_keep_log_inv (g : ConceptGenerator) :
  log_inv g ->
  (forall C r g', negation g C = (r, g') -> log_inv g')
  /\ (forall A B r g', union g A B = (r, g') -> log_inv g')
  /\ (forall A B r g', intersection g A B = (r, g') -> log_inv g')
  /\ (forall C R r g', existential_restriction g C R = (r, g') -> log_inv g')
  /\ (forall C R r g', universal_restriction g C R = (r, g') -> log_inv g').
Proof.
  intros Hinv. split; [|split; [|split; [|split]]].
  - intros C r g'. by apply negation_log_inv.
  - intros A B r g'. by apply union_log_inv.
  - intros A B r g'. by apply intersection_log_inv.
  - intros C R r g'. by apply existential_restriction_log_inv.
  - intros C R r g'. by apply universal_restriction_log_inv.
Qed.

(** The two ways a call can end, for [frame_ok]. *)
Ltac frame_same := split; [done|]; left; done.
Ltac frame_new :=
  split; [done|]; right; eexists; rewrite ?getitem_insert;
  split; [reflexivity|]; done.

(** X9.  No operation changes Top, Bottom or the size bounds, and a call
    either leaves the registry [concepts] and the allocator as they were
    or allocates exactly one concept, the one it returns, and enters it in
    the registry under its full identifier. *)
Theorem operations_frame (g : ConceptGenerator) :
  (forall C, frame_ok g (snd (negation g C)) (fst (negation g C)))
  /\ (forall A B, frame_ok g (snd (union g A B)) (fst (union g A B)))
  /\ (forall A B,
         frame_ok g (snd (intersection g A B)) (fst (intersection g A B)))
  /\ (forall C R, frame_ok g (snd (existential_restriction g C R))
                           (fst (existential_restriction g C R)))
  /\ (forall C R, frame_ok g (snd (universal_restriction g C R))
                           (fst (universal_restriction g C R))).
Proof.
  split; [|split; [|split; [|split]]].
  - intros C. unfold negation.
    destruct (log_of_negations g !! inl C); [frame_same|].
    destruct (String.eqb (owl_name C) "Thing"); cbn [negb].
    + destruct (decide (form C = ObjectComplementOf)).
      * destruct (str C); [frame_same|].
        destruct (String.prefix _ _); frame_same.
      * frame_same.
    + cbn. frame_new.
  - intros A B. unfold union. destruct (concepts_sorter A B) as [A' B'].
    destruct (String.eqb (str A') "Nothing"); [frame_same|].
    destruct (String.eqb (str B') "Nothing"); [frame_same|].
    destruct (log_of_unions g !! (A', B')); [frame_same|].
    destruct (in_bounds g _); cbn [negb]; [|frame_same].
    cbn. frame_new.
  - intros A B. unfold intersection.
    destruct (concepts_sorter A B) as [A' B'].
    destruct (log_of_intersections g !! (A', B')); [frame_same|].
    destruct (String.eqb _ "Nothing" || String.eqb _ "Nothing")%bool;
      [frame_same|].
    destruct (in_bounds g _); cbn [negb]; [|frame_same].
    cbn. frame_new.
  - intros C R. unfold existential_restriction.
    destruct (log_of_existential_restriction g !! (C, R)); [frame_same|].
    destruct (in_bounds g _); cbn [negb]; [|frame_same].
    cbn. frame_new.
  - intros C R. unfold universal_restriction.
    destruct (log_of_universal_restriction g !! (C, R)); [frame_same|].
    destruct (in_bounds g _); cbn [negb]; [|frame_same].
    cbn. frame_new.
Qed.


(** The branch [union] takes, read off the sorted pair. *)
Lemma union_branches (g : ConceptGenerator) (A0 B0 A B : Concept) :
  concepts_sorter A0 B0 = (A, B) ->
  (str A = "Nothing" /\ union g A0 B0 = (inr B, g))
  \/ (str A <> "Nothing" /\ str B = "Nothing" /\ union g A0 B0 = (inr A, g))
  \/ (str A <> "Nothing" /\ str B <> "Nothing"
      /\ ((exists c, log_of_unions g !! (A, B) = Some c
                     /\ union g A0 B0 = (inr c, g))
          \/ (log_of_unions g !! (A, B) = None
              /\ in_bounds g (instances A ∪ instances B) = false
              /\ union g A0 B0 = (inr (Bottom g), g))
          \/ (log_of_unions g !! (A, B) = None
              /\ in_bounds g (instances A ∪ instances B) = true
              /\ exists c,
                  instances c = instances A ∪ instances B
                  /\ union g A0 B0
                     = (inr c,
                        register g c
                          (set_log_of_unions
                             (<[(A, B) := c]> (log_of_unions g))))))).
Proof.
  intros Hs. unfold union. rewrite Hs.
  destruct (String.eqb_spec (str A) "Nothing") as [HA|HA]; [by left|].
  destruct (String.eqb_spec (str B) "Nothing") as [HB|HB];
    [right; left; done|].
  right. right. split; [done|]. split; [done|].
  destruct (log_of_unions g !! (A, B)) as [c|] eqn:Hlog.
  { left. by exists c. }
  destruct (in_bounds g (instances A ∪ instances B)) eqn:Hb; cbn [negb].
  - right. right. split; [done|]. split; [done|].
    eexists. split; [|cbn; rewrite getitem_insert; reflexivity]. done.
  - right. left. done.
Qed.

(** X10.  [union] never raises.  When exactly one operand renders as
    ['Nothing'] it returns the other operand, and when both do it returns
    the one the sorter puts second; the generator is left as it was.
    Otherwise it returns Bottom, leaving the generator as it was, when the
    union of the two extensions lies outside the size bounds, and a
    concept with that union as its extension when it lies within. *)
Theorem union_result (g : ConceptGenerator) (A B : Concept) :
  log_inv g ->
  exists c g',
    union g A B = (inr c, g')
    /\ ((str A = "Nothing" /\ str B <> "Nothing" /\ c = B /\ g' = g)
        \/ (str A <> "Nothing" /\ str B = "Nothing" /\ c = A /\ g' = g)
        \/ (str A = "Nothing" /\ str B = "Nothing"
            /\ c = (concepts_sorter A B).2 /\ g' = g)
        \/ (str A <> "Nothing" /\ str B <> "Nothing"
            /\ ((in_bounds g (instances A ∪ instances B) = false
                 /\ c = Bottom g /\ g' = g)
                \/ (in_bounds g (instances A ∪ instances B) = true
                    /\ instances c = instances A ∪ instances B)))).
Proof.
  intros Hinv.
  destruct (concepts_sorter A B) as [A' B'] eqn:Hs.
  assert (Hext : instances A' ∪ instances B' = instances A ∪ instances B).
  { destruct (concepts_sorter_cases A B) as [Hc|Hc]; rewrite Hs in Hc;
      injection Hc as -> ->; [done|]. apply union_comm_L. }
  assert (Hpair : (A' = A /\ B' = B) \/ (A' = B /\ B' = A)).
  { destruct (concepts_sorter_cases A B) as [Hc|Hc]; rewrite Hs in Hc;
      injection Hc as -> ->; auto. }
  destruct (union_branches g A B A' B' Hs)
    as [[HA ->]|[(HA & HB & ->)|(HA & HB & Hrun)]].
  - eexists _, _. split; [done|]. cbn [snd].
    destruct Hpair as [[-> ->]|[-> ->]].
    + destruct (decide (str B = "Nothing")); [right; right; left|left]; done.
    + destruct (decide (str A = "Nothing")); [right; right; left|right; left];
        done.
  - eexists _, _. split; [done|].
    destruct Hpair as [[-> ->]|[-> ->]]; [right; left|left]; done.
  - assert (str A <> "Nothing" /\ str B <> "Nothing") as [HA0 HB0].
    { destruct Hpair as [[-> ->]|[-> ->]]; done. }
    rewrite Hext in Hrun.
    destruct Hrun as [(c & Hlog & ->)|[(Hlog & Hb & ->)|(Hlog & Hb & c & Hc & ->)]].
    + apply (inv_unions g Hinv) in Hlog as [Hin Hc]. rewrite Hext in Hin, Hc.
      eexists _, _. split; [done|]. do 3 right. split; [done|]. split; [done|].
      right. done.
    + eexists _, _. split; [done|]. do 3 right. split; [done|]. split; [done|].
      left. done.
    + eexists _, _. split; [done|]. do 3 right. split; [done|]. split; [done|].
      right. done.
Qed.

(** X11.  [intersection] never raises, and what it returns is Bottom or a
    concept whose extension is the intersection of the two extensions and
    lies within the size bounds. *)
Theorem intersection_result (g : ConceptGenerator) (A B : Concept) :
  log_inv g ->
  exists c g',
    intersection g A B = (inr c, g')
    /\ (c = Bottom g
        \/ (instances c = instances A ∩ instances B
            /\ in_bounds g (instances c) = true)).
Proof.
  intros Hinv. unfold intersection.
  destruct (concepts_sorter_cases A B) as [-> | ->];
    [|rewrite (intersection_comm_L (instances A))];
    (destruct (log_of_intersections g !! _) as [c|] eqn:Hlog;
     [apply (inv_intersections g Hinv) in Hlog
        as [[_ ->]|(_ & _ & Hin & Hext)];
      eexists _, _; (split; [done|]);
      [by left|right; by rewrite Hext]|]);
    (destruct (String.eqb _ "Nothing" || String.eqb _ "Nothing")%bool;
     [cbn; rewrite getitem_insert; eexists _, _; split; [done|]; by left|]);
    (destruct (in_bounds g _) eqn:Hb; cbn [negb];
     [cbn; rewrite getitem_insert; eexists _, _; split; [done|];
      right; done
     |eexists _, _; split; [done|]; left; done]).
Qed.

(** X12.  [existential_restriction(C, R)] never raises; it returns Bottom
    or a concept within the size bounds whose extension is exactly the set
    of subjects [x] with some pair [(x, y)] of [R] whose object [y] is in
    the extension of [C]. *)
Theorem existential_restriction_result (g : ConceptGenerator)
        (C : Concept) (R : Role) :
  log_inv g ->
  exists c g',
    existential_restriction g C R = (inr c, g')
    /\ (c = Bottom g
        \/ (in_bounds g (instances c) = true
            /\ forall x, x ∈ instances c
                         <-> exists y, (x, y) ∈ get_relations R
                                       /\ y ∈ instances C)).
Proof.
  intros Hinv. unfold existential_restriction.
  destruct (log_of_existential_restriction g !! (C, R)) as [c|] eqn:Hlog.
  { apply (inv_existential g Hinv) in Hlog as [Hin Hext].
    eexists _, _. split; [done|]. right. rewrite Hext. split; [done|].
    intros x. apply (elem_of_existential_instances g). }
  destruct (in_bounds g _) eqn:Hb; cbn [negb].
  - cbn. rewrite getitem_insert. eexists _, _. split; [done|]. right.
    cbn. split; [done|]. intros x. apply (elem_of_existential_instances g).
  - eexists _, _. split; [done|]. by left.
Qed.

(** X13.  [universal_restriction(C, R)] never raises; it returns Bottom or
    a concept within the size bounds whose extension is the extension of
    Top without the individuals that occur as the object of a pair of [R]
    and are not in the extension of [C]. *)
Theorem universal_restriction_result (g : ConceptGenerator)
        (C : Concept) (R : Role) :
  log_inv g ->
  exists c g',
    universal_restriction g C R = (inr c, g')
    /\ (c = Bottom g
        \/ (in_bounds g (instances c) = true
            /\ forall x, x ∈ instances c
                         <-> x ∈ instances (T g)
                             /\ ((exists s, (s, x) ∈ get_relations R)
                                 -> x ∈ instances C))).
Proof.
  intros Hinv. unfold universal_restriction.
  destruct (log_of_universal_restriction g !! (C, R)) as [c|] eqn:Hlog.
  { apply (inv_universal g Hinv) in Hlog as [Hin Hext].
    eexists _, _. split; [done|]. right. rewrite Hext. split; [done|].
    intros x. apply (elem_of_universal_instances g). }
  destruct (in_bounds g _) eqn:Hb; cbn [negb].
  - cbn. rewrite getitem_insert. eexists _, _. split; [done|]. right.
    cbn. split; [done|]. intros x. apply (elem_of_universal_instances g).
  - eexists _, _. split; [done|]. by left.
Qed.

(** X14.  For a concept not named ['Thing'], [negation] returns a concept
    whose extension is the extension of Top minus the concept's own.
    There is no size check on this path: the complement is returned
    whatever its size. *)
Theorem negation_result (g : ConceptGenerator) (C : Concept) :
  log_inv g -> owl_name C <> "Thing" ->
  exists c g',
    negation g C = (inr c, g')
    /\ instances c = instances (T g) ∖ instances C.
Proof.
  intros Hinv Hname.
  destruct (log_of_negations g !! inl C) as [c|] eqn:Hlog.
  - exists c, g. split; [by apply negation_cached|].
    by apply (inv_negations g Hinv) in Hlog as [_ ?].
  - eexists _, _. split; [by apply negation_fresh|]. done.
Qed.

End GeneratorMore.

Section EnrichmentProperties.

Import Generator Enrichment.

(** X20.  [type_enrichment] appends [new_concept] to the [is_a] list of an
    individual once for each time the individual occurs in [instances],
    after the entries already there; individuals that do not occur keep
    their list. *)
Theorem type_enrichment_lookup {X : Type} (instances : list nat)
        (new_concept : X) (is_a : nat -> list X) (i : nat) :
  type_enrichment instances new_concept is_a i
  = is_a i ++ replicate (length (filter (fun j => j = i) instances))
                        new_concept.
Proof.
  unfold type_enrichment. revert is_a.
  induction instances as [|j instances IH]; intros is_a; cbn [fold_left].
  - cbn. by rewrite app_nil_r.
  - rewrite IH. rewrite filter_cons.
    destruct (decide (j = i)) as [->|Hne].
    + rewrite decide_True by done. cbn [length replicate].
      by rewrite <- app_assoc.
    + by rewrite decide_False by done.
Qed.

End EnrichmentProperties.

Section CrossProductProperties.

Import Generator CrossProduct.
Context `{ConceptLen}.

Lemma later_refl (g : ConceptGenerator) : later g g.
Proof. split; [by repeat split|done]. Qed.

Lemma later_trans (g1 g2 g3 : ConceptGenerator) :
  later g1 g2 -> later g2 g3 -> later g1 g3.
Proof.
  intros [(?&?&?&?) H12] [(?&?&?&?) H23]. split.
  - repeat split; congruence.
  - intros k c Hk. by apply H23, H12.
Qed.

Lemma in_bounds_same_config (g g' : ConceptGenerator) (s : gset nat) :
  same_config g g' -> in_bounds g' s = in_bounds g s.
Proof. intros (_ & _ & Hmin & Hmax). unfold in_bounds. by rewrite Hmin, Hmax. Qed.

(** A call of [union] leaves a later state, and asked again there it
    gives the same concept and changes nothing. *)
Lemma union_step (g : ConceptGenerator) (i j : Concept) :
  log_inv g ->
  exists c g', union g i j = (inr c, g') /\ log_inv g' /\ later g g'
               /\ union g' i j = (inr c, g').
Proof.
  intros Hinv. destruct (concepts_sorter i j) as [A B] eqn:Hs.
  destruct (union_branches g i j A B Hs)
    as [[HA Hrun]|[(HA & HB & Hrun)|(HA & HB & [(c & Hlog & Hrun)|[(Hlog & Hb & Hrun)|(Hlog & Hb & c & Hc & Hrun)]])]].
  1-4: eexists _, _; split; [exact Hrun|]; split; [done|];
       split; [apply later_refl|done].
  exists c, (register g c (set_log_of_unions (<[(A, B) := c]> (log_of_unions g)))).
  split; [done|]. split; [by eapply union_log_inv|]. split.
  - split; [by repeat split|]. cbn. intros k c' Hk.
    rewrite lookup_insert_ne; [done|]. intros <-. congruence.
  - unfold union. rewrite Hs.
    destruct (String.eqb_spec (str A) "Nothing") as [|_]; [done|].
    destruct (String.eqb_spec (str B) "Nothing") as [|_]; [done|].
    cbn. by rewrite lookup_insert_eq.
Qed.

(** What [union] answers without changing the state stays its answer in
    every later state. *)
Lemma union_settled_later (g g' : ConceptGenerator) (i j c : Concept) :
  log_inv g' -> later g g' ->
  union g i j = (inr c, g) -> union g' i j = (inr c, g').
Proof.
  intros Hinv' [Hcfg Hmono] Hrun.
  destruct (concepts_sorter i j) as [A B] eqn:Hs.
  destruct (union_branches g i j A B Hs)
    as [[HA Hrun0]|[(HA & HB & Hrun0)|(HA & HB & [(c0 & Hlog & Hrun0)|[(Hlog & Hb & Hrun0)|(Hlog & Hb & c0 & Hc & Hrun0)]])]];
    rewrite Hrun0 in Hrun.
  - injection Hrun as <-.
    destruct (union_branches g' i j A B Hs) as [[_ ->]|[(?&_)|(?&_)]]; done.
  - injection Hrun as <-.
    destruct (union_branches g' i j A B Hs) as [[? _]|[(_&_&->)|(_&?&_)]]; done.
  - injection Hrun as <-. apply Hmono in Hlog.
    destruct (union_branches g' i j A B Hs)
      as [[? _]|[(_&?&_)|(_ & _ & [(c1 & Hlog1 & ->)|[(Hlog1 & _)|(Hlog1 & _)]])]];
      congruence.
  - injection Hrun as <-.
    destruct (union_branches g' i j A B Hs)
      as [[? _]|[(_&?&_)|(_ & _ & [(c1 & Hlog1 & _)|[(_ & _ & ->)|(_ & Hb1 & _)]])]];
      [done|done| | |].
    + apply (inv_unions g' Hinv') in Hlog1 as [Hin _].
      rewrite (in_bounds_same_config g g') in Hin by done. congruence.
    + destruct Hcfg as (_ & -> & _). done.
    + rewrite (in_bounds_same_config g g') in Hb1 by done. congruence.
  - exfalso. injection Hrun as _ Hg. apply (f_equal next_id) in Hg.
    cbn in Hg. lia.
Qed.

Lemma inner_loop_spec (i : Concept) (newset : list Concept) :
  forall (g : ConceptGenerator) (retset : gset Concept),
    log_inv g ->
    exists retset' g',
      inner_loop g i newset retset = (inr retset', g')
      /\ log_inv g' /\ later g g'
      /\ retset ⊆ retset'
      /\ (forall c, c ∈ retset' ->
                    c ∈ retset
                    \/ exists j, j ∈ newset /\ union g' i j = (inr c, g'))
      /\ (forall j, j ∈ newset ->
                    exists c, c ∈ retset' /\ union g' i j = (inr c, g')).
Proof.
  induction newset as [|j newset IH]; intros g retset Hinv; cbn [inner_loop].
  - exists retset, g. split; [done|]. split; [done|].
    split; [apply later_refl|]. split; [done|].
    split; [by left|]. intros j Hj. by apply elem_of_nil in Hj.
  - destruct (union_step g i j Hinv) as (c & g1 & -> & Hinv1 & Hl1 & Hc).
    destruct (IH g1 (retset ∪ {[c]}) Hinv1)
      as (retset' & g' & -> & Hinv' & Hl' & Hsub & Hsound & Hcompl).
    assert (Hc' : union g' i j = (inr c, g'))
      by (by eapply union_settled_later).
    exists retset', g'. split; [done|]. split; [done|].
    split; [by eapply later_trans|].
    split; [set_solver|]. split.
    + intros c' Hc'in. destruct (Hsound c' Hc'in) as [Hin|(j' & Hj' & Hu)].
      * apply elem_of_union in Hin as [Hin|Hin]; [by left|].
        apply elem_of_singleton in Hin as ->. right. exists j.
        split; [by left|done].
      * right. exists j'. split; [by right|done].
    + intros j' Hj'. apply elem_of_cons in Hj' as [->|Hj'].
      * exists c. split; [set_solver|done].
      * by apply Hcompl.
Qed.

Lemma outer_loop_spec (newset : list Concept) (baseset : list Concept) :
  forall (g : ConceptGenerator) (retset : gset Concept),
    log_inv g ->
    exists retset' g',
      outer_loop g baseset newset retset = (inr retset', g')
      /\ log_inv g' /\ later g g'
      /\ (forall c, c ∈ retset' ->
                    c ∈ retset
                    \/ exists i j, i ∈ baseset /\ j ∈ newset
                                   /\ union g' i j = (inr c, g'))
      /\ (forall i j, i ∈ baseset -> j ∈ newset ->
                      exists c, c ∈ retset' /\ union g' i j = (inr c, g'))
      /\ retset ⊆ retset'.
Proof.
  induction baseset as [|i baseset IH]; intros g retset Hinv; cbn [outer_loop].
  - exists retset, g. split; [done|]. split; [done|].
    split; [apply later_refl|]. split; [by left|].
    split; [|done]. intros i j Hi. by apply elem_of_nil in Hi.
  - destruct (inner_loop_spec i newset g retset Hinv)
      as (ret1 & g1 & -> & Hinv1 & Hl1 & Hsub1 & Hsound1 & Hcompl1).
    destruct (IH g1 ret1 Hinv1)
      as (retset' & g' & -> & Hinv' & Hl' & Hsound & Hcompl & Hsub).
    exists retset', g'. split; [done|]. split; [done|].
    split; [by eapply later_trans|]. split; [|split].
    + intros c Hc. destruct (Hsound c Hc) as [Hin|(i' & j & Hi' & Hj & Hu)].
      * destruct (Hsound1 c Hin) as [?|(j & Hj & Hu)]; [by left|].
        right. exists i, j. split; [by left|]. split; [done|].
        by eapply union_settled_later.
      * right. exists i', j. split; [by right|]. done.
    + intros i' j Hi' Hj. apply elem_of_cons in Hi' as [->|Hi'].
      * destruct (Hcompl1 j Hj) as (c & Hc & Hu). exists c.
        split; [set_solver|]. by eapply union_settled_later.
      * by apply Hcompl.
    + set_solver.
Qed.


End CrossProductProperties.

(** ** Reporting methods *)

Section ReportsProperties.

Import Reports.
Local Open Scope string_scope.

(** [__get_metric_key] raises [ValueError] exactly for a key other than
    ['quality'], ['heuristic'] and ['length'], and the attribute it
    returns is the key. *)
Theorem get_metric_key_spec (quality_name heuristic_name key : string) :
  (get_metric_key quality_name heuristic_name key = inl ValueError
   <-> key <> "quality" /\ key <> "heuristic" /\ key <> "length")
  /\ (forall metric attribute,
         get_metric_key quality_name heuristic_name key
         = inr (metric, attribute) ->
         attribute = key).
Proof.
  unfold get_metric_key.
  destruct (String.eqb_spec key "quality") as [->|H1].
  { split; [split; [discriminate|by intros [? _]]|by intros ? ? [= _ <-]]. }
  destruct (String.eqb_spec key "heuristic") as [->|H2].
  { split; [split; [discriminate|by intros (_ & ? & _)]|by intros ? ? [= _ <-]]. }
  destruct (String.eqb_spec key "length") as [->|H3].
  { split; [split; [discriminate|by intros (_ & _ & ?)]|by intros ? ? [= _ <-]]. }
  split; [done|discriminate].
Qed.

Lemma climb_chain (p : Node) : parent_chain (p :: climb p).
Proof.
  induction p as [c|c q IH]; cbn; [done|].
  split; [done|exact IH].
Qed.

(** X22.  The hierarchy [show_best_predictions] builds for a predicted
    node: for a node without parent the construction raises
    [AttributeError]; otherwise it is the node, its parent and the further
    ancestors, each followed by its own parent, ending at the root. *)
Theorem concept_hierarchy_spec (pred_node : Node) :
  (parent_node pred_node = None
   <-> concept_hierarchy pred_node = inl AttributeError)
  /\ (forall h, concept_hierarchy pred_node = inr h ->
                exists p rest, h = pred_node :: p :: rest
                               /\ parent_chain h).
Proof.
  unfold concept_hierarchy. destruct (parent_node pred_node) as [p|] eqn:Hp.
  - split; [split; discriminate|].
    intros h [= <-]. exists p, (climb p). split; [done|].
    split; [by rewrite Hp|apply climb_chain].
  - split; [done|discriminate].
Qed.

(** X23.  With a file name given, [show_best_predictions] raises
    [ValueError] for a key other than ['quality'], ['heuristic'] and
    ['length'] before anything is written; with a valid key it raises
    [AttributeError] at the first predicted node that is a root, after the
    predictions in front of it have been written. *)
Theorem show_best_predictions_errors (quality_name heuristic_name : string)
        (predictions : list Node) (key file : string) :
  (key <> "quality" -> key <> "heuristic" -> key <> "length" ->
   show_best_predictions quality_name heuristic_name predictions key
                         (Some file)
   = ([], Some ValueError))
  /\ ((key = "quality" \/ key = "heuristic" \/ key = "length") ->
      forall (before : list Node) (root : Node) (after : list Node),
        predictions = (before ++ root :: after)%list ->
        Forall (fun n => parent_node n <> None) before ->
        parent_node root = None ->
        exists hs,
          show_best_predictions quality_name heuristic_name predictions key
                                (Some file)
          = (hs, Some AttributeError)
          /\ length hs = length before).
Proof.
  split.
  - intros H1 H2 H3. unfold show_best_predictions.
    destruct (get_metric_key_spec quality_name heuristic_name key)
      as [[_ Herr] _].
    by rewrite Herr.
  - intros Hkey before root after -> Hbefore Hroot.
    unfold show_best_predictions.
    destruct (get_metric_key quality_name heuristic_name key) as [e|m] eqn:Hm.
    { destruct (get_metric_key_spec quality_name heuristic_name key)
        as [[Herr _] _].
      destruct e.
      - apply Herr in Hm. destruct Hm as (? & ? & ?).
        by destruct Hkey as [?|[?|?]].
      - unfold get_metric_key in Hm. repeat case_match; discriminate. }
    clear Hm. induction Hbefore as [|n before Hn _ IH]; cbn.
    + unfold concept_hierarchy. rewrite Hroot. by exists [].
    + unfold concept_hierarchy at 1.
      destruct (parent_node n) as [p|]; [|done].
      destruct IH as (hs & -> & Hlen). eexists. split; [done|].
      cbn. by rewrite Hlen.
Qed.

(** X24.  [extend_ontology(top_n_concepts)] applies type enrichment, in
    tree order, to the first [top_n_concepts + 1] nodes of the sorted
    search tree (to all of them when there are fewer, to none when
    [top_n_concepts] is negative): the test is [ith <= top_n_concepts]
    with [ith] counted from 0. *)
Theorem extend_ontology_firstn {KB : Type}
        (apply_type_enrichment : KB -> Generator.Concept -> KB)
        (top_n_concepts : Z) (nodes : list Node) (kb : KB) :
  extend_ontology apply_type_enrichment top_n_concepts nodes kb
  = fold_left apply_type_enrichment
              (map concept (firstn (Z.to_nat (top_n_concepts + 1)) nodes))
              kb.
Proof.
  unfold extend_ontology.
  replace (top_n_concepts + 1)%Z with (top_n_concepts + 1 - 0)%Z by lia.
  generalize 0%Z as ith. revert kb.
  induction nodes as [|node nodes IH]; intros kb ith; cbn [extend_loop].
  - by rewrite firstn_nil.
  - destruct (Z.leb_spec ith top_n_concepts) as [Hle|Hgt].
    + rewrite IH.
      replace (Z.to_nat (top_n_concepts + 1 - ith))
        with (S (Z.to_nat (top_n_concepts + 1 - (ith + 1)))) by lia.
      done.
    + replace (Z.to_nat (top_n_concepts + 1 - ith)) with 0%nat by lia.
      done.
Qed.

End ReportsProperties.

(** ** The further properties on concrete inputs *)

Lemma toy_g6_log_inv : Generator.log_inv Toy.g6.
Proof. by apply (init_log_inv ∅ Toy.Top Toy.Bot 6 1 10). Qed.

Lemma toy_g25_log_inv : Generator.log_inv Toy.g25.
Proof. by apply (init_log_inv ∅ Toy.Top Toy.Bot 5 2 10). Qed.

Lemma operations_keep_log_inv_witness :
  Generator.log_inv (snd (Generator.union (H := Toy.ext_len)
                                          Toy.g6 Toy.A Toy.B)).
Proof.
  destruct (operations_keep_log_inv (H := Toy.ext_len) Toy.g6 toy_g6_log_inv)
    as (_ & Hunion & _).
  eapply Hunion. apply surjective_pairing.
Defined.

Lemma union_result_witness :
  exists c g',
    Generator.union (H := Toy.ext_len) Toy.g6 Toy.Bot Toy.B = (inr c, g')
    /\ c = Toy.B.
Proof.
  destruct (union_result (H := Toy.ext_len) Toy.g6 Toy.Bot Toy.B toy_g6_log_inv)
    as (c & g' & Hrun & Hc).
  exists c, g'. split; [exact Hrun|].
  destruct Hc as [(_ & _ & Hc & _)|[(Hno & _)|[(_ & Hno & _)|(Hno & _)]]];
    [exact Hc|by destruct Hno|discriminate Hno|by destruct Hno].
Defined.

Lemma intersection_result_witness :
  exists c g',
    Generator.intersection (H := Toy.ext_len) Toy.g6 Toy.A Toy.B
    = (inr c, g').
Proof.
  destruct (intersection_result (H := Toy.ext_len) Toy.g6 Toy.A Toy.B
                                toy_g6_log_inv)
    as (c & g' & Hrun & _).
  by exists c, g'.
Defined.

Lemma existential_restriction_result_witness :
  exists c g',
    Generator.existential_restriction Toy.g2 Toy.One Toy.r = (inr c, g').
Proof.
  assert (Hinv : Generator.log_inv Toy.g2).
  { by apply (init_log_inv ∅ Toy.Top2 Toy.Bot 5 1 10). }
  destruct (existential_restriction_result Toy.g2 Toy.One Toy.r Hinv)
    as (c & g' & Hrun & _).
  by exists c, g'.
Defined.

Lemma universal_restriction_result_witness :
  exists c g',
    Generator.universal_restriction Toy.g2 Toy.One Toy.r = (inr c, g').
Proof.
  assert (Hinv : Generator.log_inv Toy.g2).
  { by apply (init_log_inv ∅ Toy.Top2 Toy.Bot 5 1 10). }
  destruct (universal_restriction_result Toy.g2 Toy.One Toy.r Hinv)
    as (c & g' & Hrun & _).
  by exists c, g'.
Defined.

(** The complement of the empty class [E] has all six individuals, more
    than the upper bound 5 allows, and is returned all the same. *)
Lemma negation_result_witness :
  Generator.in_bounds Toy.g25
    (Generator.instances Toy.Top ∖ Generator.instances Toy2.E) = false
  /\ exists c g',
      Generator.negation Toy.g25 Toy2.E = (inr c, g')
      /\ Generator.instances c
         = Generator.instances Toy.Top ∖ Generator.instances Toy2.E.
Proof.
  split; [reflexivity|].
  apply (negation_result Toy.g25 Toy2.E toy_g25_log_inv). discriminate.
Defined.

Lemma negation_twice_witness :
  exists c g1 g2,
    Generator.negation Toy.g6 Toy.A = (inr c, g1)
    /\ Generator.negation g1 Toy.A = (inr c, g2).
Proof. apply (negation_twice Toy.g6 Toy.A). discriminate. Defined.

Lemma union_order_independent_witness :
  exists c g1 g2,
    Generator.union (H := Toy.ext_len) Toy.g6 Toy.A Toy.B = (inr c, g1)
    /\ Generator.union (H := Toy.ext_len) g1 Toy.B Toy.A = (inr c, g2).
Proof.
  apply (union_order_independent (H := Toy.ext_len) Toy.g6 Toy.A Toy.B).
  right. left. discriminate.
Defined.

Lemma union_with_Bottom_witness :
  Generator.union (H := Toy.ext_len) Toy.g6 Toy.A Toy.Bot
  = (inr Toy.A, Toy.g6)
  /\ Generator.union (H := Toy.ext_len) Toy.g6 Toy.Bot Toy.A
     = (inr Toy.A, Toy.g6).
Proof.
  apply (union_with_Bottom (H := Toy.ext_len) Toy.g6 Toy.A);
    [reflexivity|discriminate].
Defined.

Lemma intersection_with_Bottom_witness :
  fst (Generator.intersection (H := Toy.ext_len) Toy.g6 Toy.A Toy.Bot)
  = inr Toy.Bot
  /\ fst (Generator.intersection (H := Toy.ext_len) Toy.g6 Toy.Bot Toy.A)
     = inr Toy.Bot.
Proof.
  apply (intersection_with_Bottom (H := Toy.ext_len) Toy.g6 Toy.A);
    [exact toy_g6_log_inv|reflexivity].
Defined.

Lemma negation_Top_witness :
  fst (Generator.negation Toy.g6 Toy.Top) = inr Toy.Bot.
Proof.
  apply (negation_Top Toy.g6);
    [exact toy_g6_log_inv|reflexivity|discriminate|discriminate].
Defined.


(** A child of the root is written, the root itself stops the loop. *)
Lemma show_best_predictions_errors_witness :
  exists hs,
    Reports.show_best_predictions "F1" "CELOE"
      [Toy2.child_node; Toy2.root_node] "quality" (Some "out.nt")
    = (hs, Some Reports.AttributeError)
    /\ length hs = 1.
Proof.
  destruct (show_best_predictions_errors "F1" "CELOE"
              [Toy2.child_node; Toy2.root_node] "quality" "out.nt")
    as [_ Hroot].
  apply (Hroot (or_introl eq_refl) [Toy2.child_node] Toy2.root_node []);
    [reflexivity| |reflexivity].
  constructor; [discriminate|constructor].
Defined.
